(** * The e-voting simulation: the browser client and the cluster it drives

    [src/public/script.js] is the browser client of a simulated cluster
    that elects a leader and counts votes.  The client is embedded from
    its source in [Js] (the JavaScript values it handles) and [Client]
    (the page, the network and the script's functions).  The cluster
    itself is not part of the sources at hand; [Core] and [Boundary]
    model it from the specification. *)

From Stdlib Require Import ZArith Lia.
From stdpp Require Import base option list strings pretty gmap fin_maps.

Local Open Scope string_scope.
Local Open Scope list_scope.
Set Warnings "-register-all".

(** * The simulated cluster *)

Module Core.

(** Modelled from the spec: the liveness of a node. *)
Inductive Status := UP | DOWN.
(** Modelled from the spec: the role of a node. *)
Inductive Role := LEADER | FOLLOWER | CANDIDATE.

#[global] Instance Status_eq_dec : EqDecision Status.
Proof. solve_decision. Defined.
#[global] Instance Role_eq_dec : EqDecision Role.
Proof. solve_decision. Defined.

(** Modelled from the spec: the data held by one cluster member (the
    server side is absent from the sources).  The node's id is the key
    under which the cluster stores it. *)
Record Node := mkNode { status : Status; role : Role; term : nat }.

(** Modelled from the spec: one accepted vote. *)
Record Vote := mkVote { voterId : string; candidateName : string }.

(** Modelled from the spec: the owned cluster state, with the roster of
    nodes, the election term, the registry of candidates in the order
    of registration and the ledger of accepted votes, oldest first. *)
Record Cluster := mkCluster {
  nodes : gmap string Node;
  cluster_term : nat;
  candidates : list string;
  ledger : list Vote
}.

(** Modelled from the spec: one entry of the log a command returns;
    the rejections are the conditions of the spec's error taxonomy. *)
Inductive LogEvent :=
| Initialized
| LeaderElected (id : string) (t : nat)
| NoQuorum
| NodeFailed (id : string)
| AlreadyDown (id : string)
| NotFound (id : string)
| CandidateAdded (name : string)
| Duplicate (name : string)
| VoteAccepted (voter name : string)
| UnknownCandidate (name : string)
| DuplicateVoter (voter : string).

#[global] Instance LogEvent_eq_dec : EqDecision LogEvent.
Proof. solve_decision. Defined.

(** Modelled from the spec: a node of the table that is UP. *)
Definition is_up (kn : string * Node) : Prop := status kn.2 = UP.
(** Modelled from the spec: an UP node that holds the leader role. *)
Definition is_up_leader (kn : string * Node) : Prop :=
  status kn.2 = UP ∧ role kn.2 = LEADER.

#[global] Instance is_up_dec kn : Decision (is_up kn).
Proof. unfold is_up. apply _. Defined.
#[global] Instance is_up_leader_dec kn : Decision (is_up_leader kn).
Proof. unfold is_up_leader. apply _. Defined.

(** Modelled from the spec: the live roster. *)
Definition up_ids (m : gmap string Node) : list string :=
  (map_to_list (filter is_up m)).*1.
(** Modelled from the spec: the UP nodes that hold the leader role. *)
Definition leader_ids (m : gmap string Node) : list string :=
  (map_to_list (filter is_up_leader m)).*1.

(** Modelled from the spec: the tie-break is the lowest node id, in the
    lexicographic order of strings, the first rule the spec names. *)
Definition lowest (ids : list string) : option string :=
  foldr (λ i acc, Some match acc with
                       | None => i
                       | Some j => if String.ltb i j then i else j
                       end) None ids.

(** Modelled from the spec: at an election an UP node becomes a
    follower; a DOWN node is left as it is. *)
Definition demote (n : Node) : Node :=
  match status n with
  | UP => mkNode UP FOLLOWER (term n)
  | DOWN => n
  end.

(** Modelled from the spec: the winner takes the leader role and the
    new term. *)
Definition crown (t : nat) (n : Node) : Node := mkNode (status n) LEADER t.

(** Modelled from the spec: the table after an election that [w] won
    with term [t]. *)
Definition elected (t : nat) (w : string) (m : gmap string Node) : gmap string Node :=
  alter (crown t) w (demote <$> m).

(** Modelled from the spec: ElectionCoordinator.electIfNeeded.  With an
    UP leader present nothing happens; otherwise the lowest UP id wins
    the next term and every other UP node follows; with nobody UP the
    cluster stays leaderless and reports it. *)
Definition electIfNeeded (c : Cluster) : Cluster * list LogEvent :=
  match leader_ids (nodes c) with
  | _ :: _ => (c, [])
  | [] =>
      match lowest (up_ids (nodes c)) with
      | None => (c, [NoQuorum])
      | Some w =>
          let t := S (cluster_term c) in
          (mkCluster (elected t w (nodes c)) t (candidates c) (ledger c),
           [LeaderElected w t])
      end
  end.

(** Modelled from the spec: a node as initialize creates it. *)
Definition fresh_node : Node := mkNode UP FOLLOWER 0.

(** Modelled from the spec: the state before the first initialize. *)
Definition uninitialized : Cluster := mkCluster ∅ 0 [] [].

(** Modelled from the spec: initialize (re)creates the fixed roster,
    clears candidates and votes, and runs the first election. *)
Definition initialize (roster : list string) (c : Cluster)
  : Cluster * list LogEvent :=
  let c0 := mkCluster (list_to_map ((λ i, (i, fresh_node)) <$> roster)) 0 [] [] in
  let '(c1, lg) := electIfNeeded c0 in
  (c1, Initialized :: lg).

(** Modelled from the spec: FailureSimulator.failNode.  An unknown id
    and an already DOWN node leave the cluster as it is; an UP node goes
    DOWN, and a leader also loses its role before the election runs. *)
Definition failNode (id : string) (c : Cluster) : Cluster * list LogEvent :=
  match nodes c !! id with
  | None => (c, [NotFound id])
  | Some n =>
      match status n with
      | DOWN => (c, [AlreadyDown id])
      | UP =>
          match role n with
          | LEADER =>
              let c1 := mkCluster (<[id := mkNode DOWN FOLLOWER (term n)]> (nodes c))
                                  (cluster_term c) (candidates c) (ledger c) in
              let '(c2, lg) := electIfNeeded c1 in
              (c2, NodeFailed id :: lg)
          | r =>
              (mkCluster (<[id := mkNode DOWN r (term n)]> (nodes c))
                         (cluster_term c) (candidates c) (ledger c),
               [NodeFailed id])
          end
      end
  end.

(** Modelled from the spec: CandidateRegistry.register. *)
Definition addCandidate (name : string) (c : Cluster) : Cluster * list LogEvent :=
  if decide (name ∈ candidates c) then (c, [Duplicate name])
  else (mkCluster (nodes c) (cluster_term c) (candidates c ++ [name]) (ledger c),
        [CandidateAdded name]).

(** Modelled from the spec: the voter has a vote in the ledger. *)
Definition has_voted (voter : string) (c : Cluster) : bool :=
  bool_decide (voter ∈ voterId <$> ledger c).

(** Modelled from the spec: the preconditions of castVote that a request
    breaks.  The spec states each rejection on its own condition and
    gives no order between them, so a request that breaks both is
    reported with both. *)
Definition vote_rejections (voter name : string) (c : Cluster) : list LogEvent :=
  (if decide (name ∈ candidates c) then [] else [UnknownCandidate name]) ++
  (if has_voted voter c then [DuplicateVoter voter] else []).

(** Modelled from the spec: VoteLedger.castVote; a vote is accepted with
    or without a leader. *)
Definition castVote (voter name : string) (c : Cluster) : Cluster * list LogEvent :=
  match vote_rejections voter name c with
  | [] => (mkCluster (nodes c) (cluster_term c) (candidates c)
                     (ledger c ++ [mkVote voter name]),
           [VoteAccepted voter name])
  | errs => (c, errs)
  end.

(** Modelled from the spec: the tally is a view of the ledger, never a
    counter of its own. *)
Definition tally (c : Cluster) (name : string) : nat :=
  length (filter (λ v, candidateName v = name) (ledger c)).

(** Modelled from the spec: what a snapshot shows of one node; every node
    shows the tallies of the one shared ledger. *)
Record NodeView := mkNodeView {
  nv_status : Status;
  nv_is_leader : bool;
  nv_votes : list (string * nat)
}.

(** Modelled from the spec: the ClusterSnapshot value. *)
Record Snapshot := mkSnapshot {
  snap_nodes : gmap string NodeView;
  snap_candidates : list string;
  snap_leader : option string
}.

(** Modelled from the spec: the view of one node. *)
Definition view (c : Cluster) (n : Node) : NodeView :=
  mkNodeView (status n) (bool_decide (role n = LEADER))
             ((λ name, (name, tally c name)) <$> candidates c).

(** Modelled from the spec: ClusterSnapshotBuilder.snapshot. *)
Definition snapshot (c : Cluster) : Snapshot :=
  mkSnapshot (view c <$> nodes c) (candidates c) (head (leader_ids (nodes c))).

(** Modelled from the spec: the read operation, which hands the cluster back
    as it was. *)
Definition getSnapshot (c : Cluster) : Cluster * Snapshot := (c, snapshot c).

(** Modelled from the spec: the five operations of the external
    interface. *)
Inductive Op :=
| Initialize
| AddCandidate (name : string)
| CastVote (voter name : string)
| FailNode (id : string)
| GetSnapshot.

(** Modelled from the spec: the four operations that change the cluster. *)
Definition mutating (op : Op) : bool :=
  match op with GetSnapshot => false | _ => true end.

(** Modelled from the spec: what a command hands back: a read gives the
    snapshot, a mutating command the log of the call, oldest first, and
    the snapshot. *)
Record Reply := mkReply {
  reply_log : option (list LogEvent);
  reply_snapshot : Snapshot
}.

(** Modelled from the spec: the reply of a mutating command. *)
Definition with_snapshot (r : Cluster * list LogEvent) : Cluster * Reply :=
  (r.1, mkReply (Some r.2) (snapshot r.1)).

(** Modelled from the spec: one command at the serialization point. *)
Definition step (roster : list string) (op : Op) (c : Cluster) : Cluster * Reply :=
  match op with
  | Initialize => with_snapshot (initialize roster c)
  | AddCandidate name => with_snapshot (addCandidate name c)
  | CastVote voter name => with_snapshot (castVote voter name c)
  | FailNode id => with_snapshot (failNode id c)
  | GetSnapshot => let '(c', s) := getSnapshot c in (c', mkReply None s)
  end.

(** Modelled from the spec: the state a sequence of commands reaches
    from the uninitialized cluster. *)
Definition run (roster : list string) (ops : list Op) : Cluster :=
  foldl (λ c op, (step roster op c).1) uninitialized ops.

(** Modelled from the spec: the states the cluster can be in. *)
Definition reachable (roster : list string) (c : Cluster) : Prop :=
  ∃ ops, c = run roster ops.

(** Modelled from the spec: the number of nodes a snapshot shows as
    leader. *)
Definition leader_count (s : Snapshot) : nat :=
  size (filter (λ kv : string * NodeView, nv_is_leader kv.2 = true) (snap_nodes s)).

(** Modelled from the spec: I1 and I2 on the node table: a leader is
    UP, and two leaders are the same node. *)
Definition consistent (m : gmap string Node) : Prop :=
  (∀ i n, m !! i = Some n → role n = LEADER → status n = UP) ∧
  (∀ i j ni nj, m !! i = Some ni → m !! j = Some nj →
                role ni = LEADER → role nj = LEADER → i = j).

(** Modelled from the spec: a roster of three nodes after initialize. *)
Definition three_nodes : Cluster := run ["n1"; "n2"; "n3"] [Initialize].

(** Modelled from the spec: the three nodes with two candidates. *)
Definition nobody_voted : Cluster :=
  run ["n1"; "n2"; "n3"] [Initialize; AddCandidate "Alice"; AddCandidate "Bob"].

(** Modelled from the spec: the three nodes and two candidates after the
    vote of v1 for Alice. *)
Definition alice_voted : Cluster :=
  run ["n1"; "n2"; "n3"]
      [Initialize; AddCandidate "Alice"; AddCandidate "Bob"; CastVote "v1" "Alice"].

End Core.


(** * The JavaScript values the client handles *)

Module Js.

(** A number, by what the script can see of it: the text ToString
    gives for it and whether ToBoolean holds of it.  The script prints
    the numbers it is sent and tests them, and does nothing else with
    them, so these two say all of a double, whole or not, that a run of
    the script depends on: 7 is the text "7" and truthy, 0 the text "0"
    and not truthy, 1e21 the text "1e+21" and truthy. *)
Record Num := mkNum {
  num_text : string;
  num_truthy : bool
}.

(** A value decoded from a JSON body, or read off one.  Strings are
    byte strings, and an object lists its own properties in enumeration
    order, each key once. *)
Inductive JValue :=
| JUndefined
| JNull
| JBool (b : bool)
| JNum (n : Num)
| JStr (s : string)
| JArr (items : list JValue)
| JObj (props : list (string * JValue)).

(** ToBoolean, as [if (v)], [!v] and [v || w] apply it. *)
Definition truthy (v : JValue) : bool :=
  match v with
  | JUndefined | JNull => false
  | JBool b => b
  | JNum n => num_truthy n
  | JStr s => negb (String.eqb s "")
  | JArr _ | JObj _ => true
  end.

(** [v === 'text'] *)
Definition is_string (text : string) (v : JValue) : bool :=
  match v with
  | JStr s => String.eqb s text
  | _ => false
  end.

Definition has_key (k : string) (props : list (string * JValue)) : bool :=
  existsb (λ kv, String.eqb kv.1 k) props.

(** ToString, as a template literal applies it; [None] is the TypeError
    of an object whose own [toString] property hides the inherited
    method.  An array joins its items with commas, null and undefined
    items printing as nothing. *)
Fixpoint to_string (v : JValue) : option string :=
  match v with
  | JUndefined => Some "undefined"
  | JNull => Some "null"
  | JBool true => Some "true"
  | JBool false => Some "false"
  | JNum n => Some (num_text n)
  | JStr s => Some s
  | JArr items =>
      String.concat "," <$>
        (fix join (l : list JValue) : option (list string) :=
           match l with
           | [] => Some []
           | x :: rest =>
               match (match x with
                      | JUndefined | JNull => Some ""
                      | _ => to_string x
                      end) with
               | Some sx => cons sx <$> join rest
               | None => None
               end
           end) items
  | JObj props => if has_key "toString" props then None else Some "[object Object]"
  end.

(** [String.prototype.includes] *)
Fixpoint str_includes (needle s : string) : bool :=
  String.prefix needle s ||
  match s with
  | EmptyString => false
  | String _ rest => str_includes needle rest
  end.

(** [line.includes(needle)]: the string method, the array method when
    the line is an array, and [None] (a TypeError) for every other
    value, which has no such method. *)
Definition includes (needle : string) (line : JValue) : option bool :=
  match line with
  | JStr s => Some (str_includes needle s)
  | JArr items => Some (existsb (is_string needle) items)
  | _ => None
  end.

Definition chars (s : string) : list JValue :=
  (λ ch, JStr (String ch EmptyString)) <$> String.list_ascii_of_string s.

(** [Object.entries(v)]; [None] is the TypeError for null and undefined. *)
Definition entries (v : JValue) : option (list (string * JValue)) :=
  match v with
  | JUndefined | JNull => None
  | JObj props => Some props
  | JArr items => Some (imap (λ i x, (pretty i, x)) items)
  | JStr s => Some (imap (λ i x, (pretty i, x)) (chars s))
  | JBool _ | JNum _ => Some []
  end.

(** The keys [for (k in v)] visits, none for null and undefined; they
    are the keys [Object.keys(v)] returns for every other value. *)
Definition keys (v : JValue) : list string :=
  match entries v with
  | Some es => es.*1
  | None => []
  end.

Definition lookup_prop (k : string) (props : list (string * JValue)) : JValue :=
  match List.find (λ kv, String.eqb kv.1 k) props with
  | Some kv => kv.2
  | None => JUndefined
  end.

(** [v.k] for the property names the script reads (log, state,
    candidates, nodes, status, is_leader, votes), none of which is a
    built-in property of a string, an array, a number or a boolean;
    [None] is the TypeError for null and undefined. *)
Definition get (k : string) (v : JValue) : option JValue :=
  match v with
  | JUndefined | JNull => None
  | JObj props => Some (lookup_prop k props)
  | _ => Some JUndefined
  end.

End Js.


(** * The browser client, [src/public/script.js] *)

Module Client.
Import Js.

Definition API_BASE : string := "".

(** The handlers the script installs: the arrow function of a vote
    button and the inline [failNode('id')] of a status entry. *)
Inductive Handler :=
| CastVoteFor (name : string)
| FailNodeOf (node_id : string).

(** A paragraph or button, as the script creates or writes it. *)
Record Element := mkElement {
  tagName : string;
  className : string;
  textContent : string;
  onclick : option Handler
}.

(** One entry of the status panel: the values the script puts into the
    markup of the entry, whose "Simulate Failure" button calls
    [failNode] on [sd_nodeId]. *)
Record StatusDiv := mkStatusDiv {
  sd_nodeId : string;
  sd_statusColor : string;
  sd_status : string;
  sd_leaderText : string;
  sd_votes : string
}.

(** The five elements the script holds references to. *)
Record Page := mkPage {
  logPanel : list Element;
  logScrollTop : Z;
  candidateList : list Element;
  statusContainer : list StatusDiv;
  candidateNameInput : string;
  voterIdInput : string
}.

(** A call of [fetch]: the URL and the options given with it; the body
    is the value handed to [JSON.stringify]. *)
Record Request := mkRequest {
  url : string;
  method : string;
  headers : list (string * string);
  body : option JValue
}.

(** What the script reads of a response: the status, which decides
    [response.ok], and the body as [response.json()] decodes it, [None]
    when the body is not JSON. *)
Record Response := mkResponse {
  status : Z;
  json : option JValue
}.

Definition ok (r : Response) : bool :=
  (200 <=? status r)%Z && (status r <=? 299)%Z.

Inductive FetchResult :=
| Rejected (reason : string)
| Resolved (r : Response).

(** The far end of [fetch]: any stateful function from requests to
    results. *)
Class Network (S : Type) := serve : S → Request → FetchResult * S.

(** What the browser decides and the script only reads: the layout
    height of the log panel and the wording of the engine's errors. *)
Class Browser := {
  scrollHeight : list Element → Z;
  type_error_message : string → string;
  syntax_error_message : string
}.

Record JsError := mkError { name : string; message : string }.

(** The callback given to [setInterval]. *)
Inductive Callback := SyncState.

(** Everything the script can change: the page, the requests sent so
    far, the alerts shown, the timers set, and the far end of the
    network. *)
Record World (S : Type) := mkWorld {
  page : Page;
  sent : list Request;
  alerts : list string;
  intervals : list (Callback * Z);
  server : S
}.
Arguments mkWorld {S}.
Arguments page {S}.
Arguments sent {S}.
Arguments alerts {S}.
Arguments intervals {S}.
Arguments server {S}.

Inductive Outcome (A : Type) :=
| Returned (a : A)
| Thrown (e : JsError).
Arguments Returned {A}.
Arguments Thrown {A}.

(** A piece of script: it changes the world and returns or throws.  A
    call of an async function is run to its end before the next event
    is taken up. *)
Definition M (S A : Type) : Type := World S → Outcome A * World S.

Definition ret {S A} (a : A) : M S A := λ w, (Returned a, w).

Definition bind {S A B} (m : M S A) (f : A → M S B) : M S B :=
  λ w, match m w with
       | (Returned a, w') => f a w'
       | (Thrown e, w') => (Thrown e, w')
       end.

Declare Scope js_scope.
Delimit Scope js_scope with js.
Notation "x ← y ; z" := (bind y (λ x, z))
  (at level 20, y at level 100, z at level 200, only parsing) : js_scope.
Notation "y ;; z" := (bind y (λ _, z))
  (at level 100, z at level 200, only parsing, right associativity) : js_scope.
Local Open Scope js_scope.

Section Script.
Context {browser : Browser} {S : Type} {network : Network S}.

Definition throw {A} (e : JsError) : M S A := λ w, (Thrown e, w).

Definition try_catch {A} (block : M S A) (handler : JsError → M S A) : M S A :=
  λ w, match block w with
       | (Returned a, w') => (Returned a, w')
       | (Thrown e, w') => handler e w'
       end.

(** A step of [Js] that throws a TypeError at [site] when it fails. *)
Definition lift_js {A} (site : string) (o : option A) : M S A :=
  match o with
  | Some a => ret a
  | None => throw (mkError "TypeError" (type_error_message site))
  end.

Definition get_page : M S Page := λ w, (Returned (page w), w).

Definition with_page (p : Page) (w : World S) : World S :=
  mkWorld p (sent w) (alerts w) (intervals w) (server w).

Definition modify_page (f : Page → Page) : M S unit :=
  λ w, (Returned (), with_page (f (page w)) w).

Definition set_logPanel (l : list Element) (p : Page) : Page :=
  mkPage l (logScrollTop p) (candidateList p) (statusContainer p)
         (candidateNameInput p) (voterIdInput p).
Definition set_logScrollTop (z : Z) (p : Page) : Page :=
  mkPage (logPanel p) z (candidateList p) (statusContainer p)
         (candidateNameInput p) (voterIdInput p).
Definition set_candidateList (l : list Element) (p : Page) : Page :=
  mkPage (logPanel p) (logScrollTop p) l (statusContainer p)
         (candidateNameInput p) (voterIdInput p).
Definition set_statusContainer (l : list StatusDiv) (p : Page) : Page :=
  mkPage (logPanel p) (logScrollTop p) (candidateList p) l
         (candidateNameInput p) (voterIdInput p).
Definition set_candidateNameInput (v : string) (p : Page) : Page :=
  mkPage (logPanel p) (logScrollTop p) (candidateList p) (statusContainer p)
         v (voterIdInput p).
Definition set_voterIdInput (v : string) (p : Page) : Page :=
  mkPage (logPanel p) (logScrollTop p) (candidateList p) (statusContainer p)
         (candidateNameInput p) v.

Definition alert (text : string) : M S unit :=
  λ w, (Returned (), mkWorld (page w) (sent w) (alerts w ++ [text]) (intervals w) (server w)).

Definition setInterval (cb : Callback) (delay : Z) : M S unit :=
  λ w, (Returned (),
        mkWorld (page w) (sent w) (alerts w) (intervals w ++ [(cb, delay)]) (server w)).

(** [await fetch(...)]: the request goes out, and a rejection is
    thrown at the caller. *)
Definition fetch (req : Request) : M S Response :=
  λ w, let '(res, s') := serve (server w) req in
       let w' := mkWorld (page w) (sent w ++ [req]) (alerts w) (intervals w) s' in
       match res with
       | Rejected reason => (Thrown (mkError "TypeError" reason), w')
       | Resolved r => (Returned r, w')
       end.

(** [await response.json()] *)
Definition response_json (r : Response) : M S JValue :=
  match json r with
  | Some v => ret v
  | None => throw (mkError "SyntaxError" syntax_error_message)
  end.

Fixpoint forEach {A} (f : A → M S unit) (l : list A) : M S unit :=
  match l with
  | [] => ret ()
  | x :: rest => f x ;; forEach f rest
  end.

Fixpoint mapM {A B} (f : A → M S B) (l : list A) : M S (list B) :=
  match l with
  | [] => ret []
  | x :: rest => y ← f x; ys ← mapM f rest; ret (y :: ys)
  end.

(** The arrow function [appendLog] runs on each line, lines 13-23. *)
Definition append_line (line : JValue) : M S unit :=
  text ← lift_js "`> ${line}`" (to_string line);
  alarm ← lift_js "line.includes" (includes "!!" line);
  down ← (if alarm then ret true
          else lift_js "line.includes" (includes "down" line));
  cls ← (if down then ret "log-line text-red-400 font-bold"
         else
           leader ← lift_js "line.includes" (includes "LEADER" line);
           ret (if leader then "log-line text-yellow-400"
                else "log-line text-green-400"));
  modify_page (λ p,
    set_logPanel (logPanel p ++ [mkElement "p" cls ("> " +:+ text) None]) p).

(** [appendLog], lines 11-25. *)
Definition appendLog (logArray : JValue) : M S unit :=
  if negb (truthy logArray) then ret () else
  match logArray with
  | JArr lines =>
      forEach append_line lines ;;
      modify_page (λ p, set_logScrollTop (scrollHeight (logPanel p)) p)
  | _ => throw (mkError "TypeError" (type_error_message "logArray.forEach"))
  end.

Definition vote_button (name : string) : Element :=
  mkElement "button"
    "w-full btn-primary text-white font-medium rounded-lg px-5 py-3 text-center"
    ("Vote for " +:+ name) (Some (CastVoteFor name)).

Definition no_candidates : Element :=
  mkElement "p" "text-gray-500" "Admin needs to add candidates." None.

(** [updateUI], lines 27-62. *)
Definition updateUI (state : JValue) : M S unit :=
  if negb (truthy state) then ret () else
  modify_page (set_candidateList []) ;;
  cands ← lift_js "state.candidates" (get "candidates" state);
  (if (0 <? length (keys (if truthy cands then cands else JObj [])))%nat then
     forEach (λ name,
       modify_page (λ p, set_candidateList (candidateList p ++ [vote_button name]) p))
       (keys cands)
   else modify_page (set_candidateList [no_candidates])) ;;
  modify_page (set_statusContainer []) ;;
  nodes ← lift_js "state.nodes" (get "nodes" state);
  node_entries ← lift_js "Object.entries(state.nodes)" (entries nodes);
  forEach (λ '(nodeId, nodeInfo),
    st ← lift_js "nodeInfo.status" (get "status" nodeInfo);
    let statusColor := if is_string "UP" st then "text-green-500" else "text-red-500" in
    is_leader ← lift_js "nodeInfo.is_leader" (get "is_leader" nodeInfo);
    let leaderText := if truthy is_leader then "👑 LEADER" else "" in
    vs ← lift_js "nodeInfo.votes" (get "votes" nodeInfo);
    vote_entries ← lift_js "Object.entries(nodeInfo.votes)" (entries vs);
    parts ← mapM (λ '(c, v),
               sv ← lift_js "`${c}: ${v}`" (to_string v);
               ret (c +:+ ": " +:+ sv)) vote_entries;
    let votes := String.concat ", " parts in
    status_text ← lift_js "${nodeInfo.status}" (to_string st);
    modify_page (λ p,
      set_statusContainer
        (statusContainer p ++ [mkStatusDiv nodeId statusColor status_text leaderText votes]) p))
    node_entries.

Definition firing_line (endpoint : string) : Element :=
  mkElement "p" "log-line text-gray-500"
            ("> Firing request to " +:+ endpoint +:+ "...") None.

(** [apiCall], lines 65-84; the defaults of [method] and [body] are
    given by the callers as ["GET"] and [JNull]. *)
Definition apiCall (endpoint : string) (method : string) (body : JValue) : M S unit :=
  modify_page (λ p, set_logPanel (logPanel p ++ [firing_line endpoint]) p) ;;
  try_catch
    (response ← fetch (mkRequest (API_BASE +:+ endpoint) method
                         [("Content-Type", "application/json")]
                         (if truthy body then Some body else None));
     if negb (ok response) then
       throw (mkError "Error" ("HTTP error! status: " +:+ pretty (status response)))
     else
       data ← response_json response;
       log ← lift_js "data.log" (get "log" data);
       appendLog log ;;
       state ← lift_js "data.state" (get "state" data);
       arg ← (if truthy state then ret state
              else
                again ← fetch (mkRequest (API_BASE +:+ "/api/get-state") "GET" [] None);
                response_json again);
       updateUI arg)
    (λ error, appendLog (JArr [JStr ("API Error: " +:+ message error)])).

(** Lines 86-110. *)
Definition initializeSystem : M S unit :=
  modify_page (set_logPanel []) ;;
  apiCall "/api/initialize" "POST" JNull.

Definition addCandidate : M S unit :=
  p ← get_page;
  let name := candidateNameInput p in
  if truthy (JStr name) then
    apiCall "/api/add-candidate" "POST" (JObj [("name", JStr name)]) ;;
    modify_page (set_candidateNameInput "")
  else ret ().

Definition castVote (candidateName : string) : M S unit :=
  p ← get_page;
  let voterId := voterIdInput p in
  if negb (truthy (JStr voterId)) then alert "Please enter a Voter ID."
  else apiCall "/api/vote" "POST"
         (JObj [("voterId", JStr voterId); ("candidateName", JStr candidateName)]).

Definition failNode (node_id : string) : M S unit :=
  apiCall "/api/fail-node" "POST" (JObj [("node_id", JStr node_id)]).

Definition run_callback (cb : Callback) : M S unit :=
  match cb with
  | SyncState => apiCall "/api/get-state" "GET" JNull
  end.

(** [window.onload], lines 113-119. *)
Definition onload : M S unit :=
  initializeSystem ;;
  setInterval SyncState 15000.

Definition run_handler (h : Handler) : M S unit :=
  match h with
  | CastVoteFor name => castVote name
  | FailNodeOf node_id => failNode node_id
  end.

(** What can happen to the page: it loads, a timer fires, the user
    types into a field, clicks an element the script made, or
    presses a control of the page that calls [initializeSystem] or
    [addCandidate]. *)
Inductive Event :=
| Load
| TimerFires (k : nat)
| Click (h : Handler)
| CallInitializeSystem
| CallAddCandidate
| TypeCandidateName (text : string)
| TypeVoterId (text : string).

Definition handle (e : Event) : M S unit :=
  match e with
  | Load => onload
  | TimerFires k =>
      λ w, match intervals w !! k with
           | Some (cb, _) => run_callback cb w
           | None => (Returned (), w)
           end
  | Click h => run_handler h
  | CallInitializeSystem => initializeSystem
  | CallAddCandidate => addCandidate
  | TypeCandidateName text => modify_page (set_candidateNameInput text)
  | TypeVoterId text => modify_page (set_voterIdInput text)
  end.

Definition dispatch (w : World S) (e : Event) : World S := (handle e w).2.

Definition run (w : World S) (es : list Event) : World S := foldl dispatch w es.

(** The request [apiCall] builds, and the one of its fallback. *)
Definition api_request (endpoint method : string) (body : JValue) : Request :=
  mkRequest (API_BASE +:+ endpoint) method
            [("Content-Type", "application/json")]
            (if truthy body then Some body else None).

Definition get_state_request : Request :=
  mkRequest (API_BASE +:+ "/api/get-state") "GET" [] None.

(** The requests of the five calls of [apiCall] in the script. *)
Definition initialize_request : Request :=
  api_request "/api/initialize" "POST" JNull.

Definition add_candidate_request (name : string) : Request :=
  api_request "/api/add-candidate" "POST" (JObj [("name", JStr name)]).

Definition vote_request (voterId candidateName : string) : Request :=
  api_request "/api/vote" "POST"
    (JObj [("voterId", JStr voterId); ("candidateName", JStr candidateName)]).

Definition fail_node_request (node_id : string) : Request :=
  api_request "/api/fail-node" "POST" (JObj [("node_id", JStr node_id)]).

Definition poll_request : Request := api_request "/api/get-state" "GET" JNull.

(** A read of the state: a GET of /api/get-state without a body. *)
Definition is_read (r : Request) : Prop :=
  url r = "/api/get-state" ∧ method r = "GET" ∧ body r = None.

(** A failed request, with the message of the error it raises in
    [apiCall]: a rejected fetch or a status that is not OK. *)
Definition failure (res : FetchResult) : option string :=
  match res with
  | Rejected reason => Some reason
  | Resolved r =>
      if ok r then None
      else Some ("HTTP error! status: " +:+ pretty (status r))
  end.

(** The paragraph [appendLog] adds for a line of text. *)
Definition log_class (text : string) : string :=
  if str_includes "!!" text || str_includes "down" text
  then "log-line text-red-400 font-bold"
  else if str_includes "LEADER" text then "log-line text-yellow-400"
  else "log-line text-green-400".

Definition log_line (text : string) : Element :=
  mkElement "p" (log_class text) ("> " +:+ text) None.

(** The page after [appendLog] was given [lines] of text. *)
Definition logged (lines : list string) (p : Page) : Page :=
  set_logScrollTop (scrollHeight (logPanel p ++ (log_line <$> lines)))
                   (set_logPanel (logPanel p ++ (log_line <$> lines)) p).

(** After its own request, [apiCall] sends its fallback read or
    nothing. *)
Definition fallback_or_none (more : list Request) : Prop :=
  more = [] ∨ more = [get_state_request].

(** The requests sent between the world [w] and the later [w']. *)
Definition issued (w w' : World S) : list Request :=
  drop (length (sent w)) (sent w').

(** Two worlds that differ in the page at most. *)
Definition same_but_page (w w' : World S) : Prop :=
  sent w' = sent w ∧ alerts w' = alerts w ∧
  intervals w' = intervals w ∧ server w' = server w.

(** A piece of script that touches the page only. *)
Definition page_only {A} (m : M S A) : Prop := ∀ w, same_but_page w (m w).2.

(** A piece of script that sends requests [Q] allows and sets no
    timer and shows no alert. *)
Definition emits {A} (Q : list Request → Prop) (m : M S A) : Prop :=
  ∀ w, ∃ more, sent (m w).2 = sent w ++ more ∧ Q more ∧
               alerts (m w).2 = alerts w ∧ intervals (m w).2 = intervals w.

End Script.

Definition blank_page : Page := mkPage [] 0 [] [] "" "".

Definition fresh_world {S} (s : S) : World S := mkWorld blank_page [] [] [] s.

(** A network that answers from a script of results, one per request,
    and rejects every request once the script is used up. *)
#[global] Instance scripted : Network (list FetchResult) := λ results _,
  match results with
  | res :: rest => (res, rest)
  | [] => (Rejected "Failed to fetch", [])
  end.

(** A browser for running the script on examples. *)
Definition example_browser : Browser :=
  {| scrollHeight := λ children, (20 * Z.of_nat (length children))%Z;
     type_error_message := λ site, site +:+ " is not valid here";
     syntax_error_message := "Unexpected token in JSON" |}.

(** A page whose one request will be answered with status 500. *)
Definition server_error : World (list FetchResult) :=
  fresh_world [Resolved (mkResponse 500 None)].

(** A page with both fields empty, and one with both filled in. *)
Definition no_voter_id : World (list FetchResult) := fresh_world [].

Definition voter_and_name : World (list FetchResult) :=
  run (browser := example_browser) (fresh_world [])
      [TypeVoterId "v1"; TypeCandidateName "Alice"].

(** A page that shows one candidate and one node, in front of a server
    that answers a read with the bare state and the fallback read that
    follows with status 500 and a JSON body of its own. *)
Definition bare_state : JValue :=
  JObj [("candidates", JObj [("Alice", JBool true)]);
        ("nodes", JObj [("n1", JObj [("status", JStr "UP");
                                     ("is_leader", JBool true);
                                     ("votes", JObj [("Alice", JNum (mkNum "0" false))])])])].

Definition fallback_fails : World (list FetchResult) :=
  mkWorld (mkPage [] 0 [vote_button "Alice"]
                  [mkStatusDiv "n1" "text-green-500" "UP" "👑 LEADER" "Alice: 0"] "" "")
          [] [] []
          [Resolved (mkResponse 200 (Some bare_state));
           Resolved (mkResponse 500 (Some (JObj [("error", JStr "boom")])))].

End Client.

(** * The HTTP boundary between the client and the cluster *)

Module Boundary.
Import Js.

(** Modelled from the spec: a string input read from the body of a
    request. *)
Definition str_field (k : string) (b : option JValue) : option string :=
  match b with
  | Some v =>
      match get k v with
      | Some (JStr s) => Some s
      | _ => None
      end
  | None => None
  end.

(** Modelled from the spec: the collaborator layer that is absent from
    the sources.  It pairs the five endpoints the client calls with the
    five operations of the cluster and reads each operation's input
    from the body under the keys the client writes. *)
Definition route (r : Client.Request) : option Core.Op :=
  let u := Client.url r in
  let post := String.eqb (Client.method r) "POST" in
  let b := Client.body r in
  if String.eqb u "/api/initialize" then
    (if post then Some Core.Initialize else None)
  else if String.eqb u "/api/add-candidate" then
    (if post then Core.AddCandidate <$> str_field "name" b else None)
  else if String.eqb u "/api/vote" then
    (if post then
       match str_field "voterId" b, str_field "candidateName" b with
       | Some voter, Some name => Some (Core.CastVote voter name)
       | _, _ => None
       end
     else None)
  else if String.eqb u "/api/fail-node" then
    (if post then Core.FailNode <$> str_field "node_id" b else None)
  else if String.eqb u "/api/get-state" then
    (if String.eqb (Client.method r) "GET" then Some Core.GetSnapshot else None)
  else None.

(** Modelled from the spec: the wording of a log entry. *)
Definition describe (e : Core.LogEvent) : string :=
  match e with
  | Core.Initialized => "Cluster initialized"
  | Core.LeaderElected id t => id +:+ " is the new LEADER for term " +:+ pretty t
  | Core.NoQuorum => "!! No quorum: no node is UP"
  | Core.NodeFailed id => "!! " +:+ id +:+ " is down"
  | Core.AlreadyDown id => id +:+ " is already down"
  | Core.NotFound id => "!! NotFound: no node " +:+ id
  | Core.CandidateAdded name => "Candidate " +:+ name +:+ " registered"
  | Core.Duplicate name => "!! Duplicate: candidate " +:+ name +:+ " is registered already"
  | Core.VoteAccepted voter name => "Vote of " +:+ voter +:+ " for " +:+ name +:+ " accepted"
  | Core.UnknownCandidate name => "!! UnknownCandidate: " +:+ name
  | Core.DuplicateVoter voter => "!! DuplicateVoter: " +:+ voter
  end.

(** Modelled from the spec: the status as the client compares it. *)
Definition encode_status (s : Core.Status) : JValue :=
  match s with
  | Core.UP => JStr "UP"
  | Core.DOWN => JStr "DOWN"
  end.

(** Modelled from the spec: a tally as the client reads it.  Tallies
    are taken to stay below 2^53, where a double holds them exactly and
    prints them in full. *)
Definition count (n : nat) : Num := mkNum (pretty n) (negb (n =? 0)%nat).

(** Modelled from the spec: a node as the client reads it. *)
Definition encode_view (v : Core.NodeView) : JValue :=
  JObj [("status", encode_status (Core.nv_status v));
        ("is_leader", JBool (Core.nv_is_leader v));
        ("votes", JObj ((λ cn : string * nat, (cn.1, JNum (count cn.2)))
                          <$> Core.nv_votes v))].

(** Modelled from the spec: the snapshot as the JSON object the client
    reads, with the candidates and the nodes keyed by name and id. *)
Definition encode_snapshot (s : Core.Snapshot) : JValue :=
  JObj [("candidates", JObj ((λ name, (name, JBool true)) <$> Core.snap_candidates s));
        ("nodes", JObj ((λ kv : string * Core.NodeView, (kv.1, encode_view kv.2))
                          <$> map_to_list (Core.snap_nodes s)))].

(** Modelled from the spec: a mutating command answers with its log
    and the snapshot, a read with the snapshot alone. *)
Definition encode_reply (r : Core.Reply) : JValue :=
  match Core.reply_log r with
  | Some lg => JObj [("log", JArr ((λ e, JStr (describe e)) <$> lg));
                     ("state", encode_snapshot (Core.reply_snapshot r))]
  | None => encode_snapshot (Core.reply_snapshot r)
  end.

(** Modelled from the spec: the cluster behind the network.  A request
    that is none of the five operations is answered 404 and changes
    nothing. *)
Definition cluster_serve (roster : list string) (c : Core.Cluster) (r : Client.Request)
  : Client.FetchResult * Core.Cluster :=
  match route r with
  | Some op =>
      let '(c', reply) := Core.step roster op c in
      (Client.Resolved (Client.mkResponse 200 (Some (encode_reply reply))), c')
  | None => (Client.Resolved (Client.mkResponse 404 None), c)
  end.

(** Modelled from the spec: the status as the panel prints it. *)
Definition status_text (s : Core.Status) : string :=
  match s with
  | Core.UP => "UP"
  | Core.DOWN => "DOWN"
  end.



(** Modelled from the spec: the request that carries an operation, as
    the spec's table gives the inputs: a name for addCandidate, a voter
    id and a candidate name for castVote, a node id for failNode, no
    body for initialize and getSnapshot. *)
Inductive Invokes : Client.Request → Core.Op → Prop :=
| invokes_initialize hs :
    Invokes (Client.mkRequest "/api/initialize" "POST" hs None) Core.Initialize
| invokes_addCandidate hs name :
    Invokes (Client.mkRequest "/api/add-candidate" "POST" hs
               (Some (JObj [("name", JStr name)])))
            (Core.AddCandidate name)
| invokes_castVote hs voter name :
    Invokes (Client.mkRequest "/api/vote" "POST" hs
               (Some (JObj [("voterId", JStr voter); ("candidateName", JStr name)])))
            (Core.CastVote voter name)
| invokes_failNode hs id :
    Invokes (Client.mkRequest "/api/fail-node" "POST" hs
               (Some (JObj [("node_id", JStr id)])))
            (Core.FailNode id)
| invokes_getSnapshot hs :
    Invokes (Client.mkRequest "/api/get-state" "GET" hs None) Core.GetSnapshot.

(** Modelled from the spec: a request that carries one of the five
    operations. *)
Definition invoking (r : Client.Request) : Prop := ∃ op, Invokes r op.

(** The operations the page lets a user ask for: a candidate name and a
    voter id have to be typed in first. *)
Definition askable (op : Core.Op) : bool :=
  match op with
  | Core.AddCandidate name => negb (String.eqb name "")
  | Core.CastVote voter _ => negb (String.eqb voter "")
  | _ => true
  end.

(** The events that make the page ask for an operation. *)
Definition ask (op : Core.Op) : list Client.Event :=
  match op with
  | Core.Initialize => [Client.CallInitializeSystem]
  | Core.AddCandidate name => [Client.TypeCandidateName name; Client.CallAddCandidate]
  | Core.CastVote voter name =>
      [Client.TypeVoterId voter; Client.Click (Client.CastVoteFor name)]
  | Core.FailNode id => [Client.Click (Client.FailNodeOf id)]
  | Core.GetSnapshot => [Client.Load; Client.TimerFires 0]
  end.

End Boundary.


(** * What the script's functions keep and what they show *)

Module Views.
Import Js Client.

Section Script.
Context {browser : Browser} {S : Type} {network : Network S}.

(** A piece of script every run of which relates the world before to
    the world after by [R]. *)
Definition respects {A} (R : World S → World S → Prop) (m : M S A) : Prop :=
  ∀ w, R w (m w).2.

(** The input fields hold what they held. *)
Definition keeps_inputs (w w' : World S) : Prop :=
  candidateNameInput (page w') = candidateNameInput (page w) ∧
  voterIdInput (page w') = voterIdInput (page w).

(** The candidate list and the status panel show what they showed. *)
Definition keeps_panels (w w' : World S) : Prop :=
  candidateList (page w') = candidateList (page w) ∧
  statusContainer (page w') = statusContainer (page w).

(** The log has all its lines, and maybe more after them. *)
Definition extends_log (w w' : World S) : Prop :=
  ∃ more, logPanel (page w') = logPanel (page w) ++ more.

(** The log and its scroll position are what they were. *)
Definition keeps_log (w w' : World S) : Prop :=
  logPanel (page w') = logPanel (page w) ∧
  logScrollTop (page w') = logScrollTop (page w).

(** Nothing changed but the log, which has grown or not. *)
Definition log_only (w w' : World S) : Prop :=
  same_but_page w w' ∧ keeps_inputs w w' ∧ keeps_panels w w' ∧ extends_log w w'.

(** Nothing changed but the two panels. *)
Definition panels_only (w w' : World S) : Prop :=
  same_but_page w w' ∧ keeps_inputs w w' ∧ keeps_log w w'.

(** The input fields are kept and the log has grown or not. *)
Definition log_and_inputs (w w' : World S) : Prop :=
  keeps_inputs w w' ∧ extends_log w w'.

(** A piece of script that leaves the world alone and always ends the
    same way. *)
Definition steady {A} (m : M S A) : Prop := ∃ o, ∀ w, m w = (o, w).

(** A piece of script that ends the same way in every world and puts
    the same entries at the end of the status panel. *)
Definition adds_status {A} (m : M S A) : Prop :=
  ∃ o more, ∀ w,
    m w = (o, with_page (set_statusContainer (statusContainer (page w) ++ more) (page w)) w).

(** The body of the loop over the candidates in [updateUI], lines 34-38. *)
Definition add_button (name : string) : M S unit :=
  modify_page (λ p, set_candidateList (candidateList p ++ [vote_button name]) p).

(** The body of the loop over the nodes in [updateUI], lines 47-60. *)
Definition add_status (entry : string * JValue) : M S unit :=
  (λ '(nodeId, nodeInfo),
    st ← lift_js "nodeInfo.status" (get "status" nodeInfo);
    let statusColor := if is_string "UP" st then "text-green-500" else "text-red-500" in
    is_leader ← lift_js "nodeInfo.is_leader" (get "is_leader" nodeInfo);
    let leaderText := if truthy is_leader then "👑 LEADER" else "" in
    vs ← lift_js "nodeInfo.votes" (get "votes" nodeInfo);
    vote_entries ← lift_js "Object.entries(nodeInfo.votes)" (entries vs);
    parts ← mapM (λ '(c, v),
               sv ← lift_js "`${c}: ${v}`" (to_string v);
               ret (c +:+ ": " +:+ sv)) vote_entries;
    let votes := String.concat ", " parts in
    status_text ← lift_js "${nodeInfo.status}" (to_string st);
    modify_page (λ p,
      set_statusContainer
        (statusContainer p ++ [mkStatusDiv nodeId statusColor status_text leaderText votes]) p))%js
  entry.

(** What [updateUI] puts into the candidate list for a state that is
    not null or undefined. *)
Definition candidate_buttons (state : JValue) : list Element :=
  match get "candidates" state with
  | Some cands =>
      if (0 <? length (keys (if truthy cands then cands else JObj [])))%nat
      then vote_button <$> keys cands
      else [no_candidates]
  | None => []
  end.

End Script.

(** A node as the status panel reads it: its status, whether it leads,
    and the number of votes of each candidate, which may be any number
    at all. *)
Record NodeInfo := mkNodeInfo {
  ni_status : string;
  ni_is_leader : bool;
  ni_votes : list (string * Num)
}.

Definition node_json (n : NodeInfo) : JValue :=
  JObj [("status", JStr (ni_status n));
        ("is_leader", JBool (ni_is_leader n));
        ("votes", JObj ((λ cv : string * Num, (cv.1, JNum cv.2)) <$> ni_votes n))].

(** The entry of the status panel for such a node. *)
Definition status_entry (entry : string * NodeInfo) : StatusDiv :=
  mkStatusDiv entry.1
    (if String.eqb (ni_status entry.2) "UP" then "text-green-500" else "text-red-500")
    (ni_status entry.2)
    (if ni_is_leader entry.2 then "👑 LEADER" else "")
    (String.concat ", "
       ((λ cv : string * Num, cv.1 +:+ ": " +:+ num_text cv.2) <$> ni_votes entry.2)).

(** A state with the given candidates and nodes. *)
Definition state_json (cands : list string) (ns : list (string * NodeInfo)) : JValue :=
  JObj [("candidates", JObj ((λ name, (name, JBool true)) <$> cands));
        ("nodes", JObj ((λ e : string * NodeInfo, (e.1, node_json e.2)) <$> ns))].






(** A log that [appendLog] shows without an error: none at all, or an
    array of strings. *)
Definition plain_log (log : JValue) (lines : list string) : Prop :=
  (truthy log = false ∧ lines = []) ∨ log = JArr (JStr <$> lines).

(** The requests of [n] firings of a timer of the page, one after the
    other: for each firing the read of /api/get-state that [apiCall]
    makes for it, and after that read its fallback read or nothing. *)
Fixpoint polled (n : nat) (reads : list Request) : Prop :=
  match n with
  | 0 => reads = []
  | S n' => ∃ more rest, fallback_or_none more ∧
                         reads = poll_request :: more ++ rest ∧ polled n' rest
  end.

(** The characters of a printed integer. *)
Definition numeric (ch : Ascii.ascii) : bool :=
  existsb (Ascii.eqb ch) (String.list_ascii_of_string "-0123456789").

Fixpoint all_numeric (s : string) : bool :=
  match s with
  | EmptyString => true
  | String ch rest => numeric ch && all_numeric rest
  end.

(** The events that run [initializeSystem], which empties the log. *)
Definition restarts (e : Event) : bool :=
  match e with
  | Load | CallInitializeSystem => true
  | _ => false
  end.

(** A body that [apiCall] cannot read, with the message of the error it
    raises: one that is not JSON, or JSON null. *)
Definition unreadable {browser : Browser} (r : Response) : option string :=
  match json r with
  | None => Some syntax_error_message
  | Some data =>
      match get "log" data with
      | None => Some (type_error_message "data.log")
      | Some _ => None
      end
  end.

(** The alert of [castVote]. *)
Definition voter_id_alert : string := "Please enter a Voter ID.".

(** The number of times the page loads in a sequence of events. *)
Definition is_load (e : Event) : bool :=
  match e with
  | Load => true
  | _ => false
  end.

Definition loads (es : list Event) : nat := length (List.filter is_load es).

(** A page whose one request will be answered 200 with a body that is
    not JSON. *)
Definition not_json : World (list FetchResult) :=
  fresh_world [Resolved (mkResponse 200 None)].


Definition error_body : JValue := JObj [("error", JStr "boom")].

(** A page whose one request will be answered 200 with a log of one
    line and a state. *)
Definition full_answer : JValue :=
  JObj [("log", JArr [JStr "Vote accepted"]); ("state", bare_state)].

Definition answered : World (list FetchResult) :=
  fresh_world [Resolved (mkResponse 200 (Some full_answer))].


End Views.


(** * The cluster keeps at most one leader *)

Section ClusterFacts.
Import Core.

Lemma elem_of_up_ids (m : gmap string Node) i :
  i ∈ up_ids m ↔ ∃ n, m !! i = Some n ∧ status n = UP.
Proof.
  unfold up_ids. rewrite list_elem_of_fmap. split.
  - intros [[k n] [-> Hin]]. apply elem_of_map_to_list in Hin.
    apply map_lookup_filter_Some in Hin as [Hl Hp]. by exists n.
  - intros (n & Hl & Hs). exists (i, n). split; [done|].
    apply elem_of_map_to_list, map_lookup_filter_Some. by split.
Qed.

Lemma elem_of_leader_ids (m : gmap string Node) i :
  i ∈ leader_ids m ↔ ∃ n, m !! i = Some n ∧ status n = UP ∧ role n = LEADER.
Proof.
  unfold leader_ids. rewrite list_elem_of_fmap. split.
  - intros [[k n] [-> Hin]]. apply elem_of_map_to_list in Hin.
    apply map_lookup_filter_Some in Hin as [Hl Hp]. by exists n.
  - intros (n & Hl & Hs). exists (i, n). split; [done|].
    apply elem_of_map_to_list, map_lookup_filter_Some. by split.
Qed.

Lemma lowest_None ids : lowest ids = None → ids = [].
Proof. by destruct ids. Qed.

Lemma lowest_elem ids w : lowest ids = Some w → w ∈ ids.
Proof.
  revert w. induction ids as [|i ids IH]; intros w; [done|].
  simpl. destruct (lowest ids) as [j|] eqn:Hj.
  - intros [= <-]. destruct (String.ltb i j); [left | right; by apply IH].
  - intros [= <-]. left.
Qed.

Lemma consistent_empty : consistent ∅.
Proof. split; intros *; by rewrite lookup_empty. Qed.

Lemma no_leader_consistent (m : gmap string Node) :
  (∀ i n, m !! i = Some n → role n ≠ LEADER) → consistent m.
Proof. intros Hno. split; intros * Hi; intros; by edestruct Hno. Qed.

Lemma elected_lookup_winner t w m n :
  m !! w = Some n → status n = UP →
  elected t w m !! w = Some (mkNode UP LEADER t).
Proof.
  intros Hw Hup. unfold elected.
  rewrite lookup_alter_eq, lookup_fmap, Hw. simpl.
  unfold demote, crown. by rewrite Hup.
Qed.

Lemma elected_lookup_other t w m j :
  j ≠ w → elected t w m !! j = demote <$> m !! j.
Proof. intros Hne. unfold elected. by rewrite lookup_alter_ne, lookup_fmap. Qed.

Lemma demote_leader n : role (demote n) = LEADER → status n = DOWN ∧ role n = LEADER.
Proof. unfold demote. by destruct (status n) eqn:Hs. Qed.

Lemma elected_consistent t w m n :
  m !! w = Some n → status n = UP → leader_ids m = [] → consistent m →
  consistent (elected t w m).
Proof.
  intros Hw Hup Hnone [Hlive Huniq].
  assert (Hfollow : ∀ j nj, j ≠ w → elected t w m !! j = Some nj → role nj ≠ LEADER).
  { intros j nj Hne. rewrite elected_lookup_other by done.
    intros Hj Hr. apply fmap_Some in Hj as (n0 & Hn0 & ->).
    apply demote_leader in Hr as [Hd Hr].
    specialize (Hlive _ _ Hn0 Hr). congruence. }
  split.
  - intros i ni Hi Hr. destruct (decide (i = w)) as [->|Hne].
    + rewrite (elected_lookup_winner _ _ _ _ Hw Hup) in Hi. by injection Hi as <-.
    + by edestruct Hfollow.
  - intros i j ni nj Hi Hj Hri Hrj.
    destruct (decide (i = w)) as [->|Hi'], (decide (j = w)) as [->|Hj']; try done.
    + by edestruct (Hfollow j).
    + by edestruct (Hfollow i).
    + by edestruct (Hfollow i).
Qed.

Lemma electIfNeeded_elects c :
  leader_ids (nodes c) = [] → up_ids (nodes c) ≠ [] →
  ∃ w n, w ∈ up_ids (nodes c) ∧ nodes c !! w = Some n ∧ status n = UP ∧
         electIfNeeded c =
           (mkCluster (elected (S (cluster_term c)) w (nodes c)) (S (cluster_term c))
                      (candidates c) (ledger c),
            [LeaderElected w (S (cluster_term c))]).
Proof.
  intros Hnone Hsome. unfold electIfNeeded. rewrite Hnone.
  destruct (lowest (up_ids (nodes c))) as [w|] eqn:Hlow.
  - pose proof (lowest_elem _ _ Hlow) as Hin.
    pose proof Hin as Hin'. apply elem_of_up_ids in Hin' as (n & Hn & Hup).
    by exists w, n.
  - by apply lowest_None in Hlow.
Qed.

Lemma electIfNeeded_consistent c :
  consistent (nodes c) → consistent (nodes (electIfNeeded c).1).
Proof.
  intros Hc. unfold electIfNeeded.
  destruct (leader_ids (nodes c)) eqn:Hl; [|done].
  destruct (lowest (up_ids (nodes c))) as [w|] eqn:Hlow; [|done].
  apply lowest_elem, elem_of_up_ids in Hlow as (n & Hn & Hup).
  simpl. by eapply elected_consistent.
Qed.

Lemma electIfNeeded_registry c :
  candidates (electIfNeeded c).1 = candidates c ∧
  ledger (electIfNeeded c).1 = ledger c.
Proof.
  unfold electIfNeeded. destruct (leader_ids (nodes c)); [|done].
  by destruct (lowest (up_ids (nodes c))).
Qed.

Lemma initialize_consistent roster c : consistent (nodes (initialize roster c).1).
Proof.
  unfold initialize.
  set (c0 := mkCluster _ 0 [] []).
  pose proof (electIfNeeded_consistent c0) as He.
  destruct (electIfNeeded c0) as [c1 lg]. simpl in *. apply He.
  apply no_leader_consistent. intros i n Hi.
  apply elem_of_list_to_map_2, list_elem_of_fmap in Hi as (k & [= -> ->] & _).
  done.
Qed.

(** Taking a node down keeps the table consistent, whatever role it is
    left with other than leader. *)
Lemma fail_consistent (m : gmap string Node) id r t :
  r ≠ LEADER → consistent m → consistent (<[id := mkNode DOWN r t]> m).
Proof.
  intros Hr [Hlive Huniq]. split.
  - intros i n. rewrite lookup_insert. case_decide as Hi.
    + by intros [= <-].
    + apply Hlive.
  - intros i j ni nj. rewrite !lookup_insert.
    repeat case_decide; try (by intros [= <-]); try (by intros ? [= <-]).
    apply Huniq.
Qed.

Lemma failNode_consistent id c :
  consistent (nodes c) → consistent (nodes (failNode id c).1).
Proof.
  intros Hc. unfold failNode.
  destruct (nodes c !! id) as [n|] eqn:Hn; [|done].
  destruct (status n) eqn:Hs; [|done].
  destruct (role n) eqn:Hr.
  - set (c1 := mkCluster _ _ _ _).
    pose proof (electIfNeeded_consistent c1) as He.
    destruct (electIfNeeded c1) as [c2 lg]. simpl in *. apply He.
    by apply fail_consistent.
  - simpl. by apply fail_consistent.
  - simpl. by apply fail_consistent.
Qed.

Lemma addCandidate_nodes name c : nodes (addCandidate name c).1 = nodes c.
Proof. unfold addCandidate. by case_decide. Qed.

Lemma castVote_nodes voter name c : nodes (castVote voter name c).1 = nodes c.
Proof. unfold castVote. by destruct (vote_rejections voter name c). Qed.

Lemma step_consistent roster op c :
  consistent (nodes c) → consistent (nodes (step roster op c).1).
Proof.
  intros Hc. destruct op; simpl.
  - apply initialize_consistent.
  - by rewrite addCandidate_nodes.
  - by rewrite castVote_nodes.
  - by apply failNode_consistent.
  - done.
Qed.

Lemma run_snoc roster ops op :
  run roster (ops ++ [op]) = (step roster op (run roster ops)).1.
Proof. unfold run. by rewrite foldl_snoc. Qed.

Lemma run_consistent roster ops : consistent (nodes (run roster ops)).
Proof.
  induction ops as [|op ops IH] using rev_ind.
  - apply consistent_empty.
  - rewrite run_snoc. by apply step_consistent.
Qed.

Lemma reachable_consistent roster c : reachable roster c → consistent (nodes c).
Proof. intros [ops ->]. apply run_consistent. Qed.

(** A map all of whose keys coincide has at most one entry. *)
Lemma size_le_1 {A} (m : gmap string A) :
  (∀ i j x y, m !! i = Some x → m !! j = Some y → i = j) → (size m ≤ 1)%nat.
Proof.
  intros Hone. destruct (decide (m = ∅)) as [->|Hne].
  - rewrite map_size_empty. lia.
  - apply map_choose in Hne as (i & x & Hi).
    assert (m = {[i := x]}) as ->.
    { apply map_eq. intros j. destruct (decide (i = j)) as [<-|Hij].
      - by rewrite lookup_singleton_eq.
      - rewrite lookup_singleton_ne by done.
        destruct (m !! j) as [y|] eqn:Hj; [|done].
        by destruct Hij; eapply Hone. }
    by rewrite map_size_singleton.
Qed.

Lemma leader_count_consistent c :
  consistent (nodes c) → (leader_count (snapshot c) ≤ 1)%nat.
Proof.
  intros [_ Huniq]. unfold leader_count. apply size_le_1.
  intros i j x y Hi Hj.
  apply map_lookup_filter_Some in Hi as [Hi Hli], Hj as [Hj Hlj].
  simpl in *. rewrite lookup_fmap in Hi, Hj.
  apply fmap_Some in Hi as (ni & Hni & ->), Hj as (nj & Hnj & ->).
  simpl in *. apply bool_decide_eq_true in Hli, Hlj. by eapply Huniq.
Qed.

End ClusterFacts.

(** * The claims about the cluster *)

Section ClusterClaims.
Import Core.

Lemma step_reply_snapshot roster op c :
  reply_snapshot (step roster op c).2 = snapshot (step roster op c).1.
Proof. by destruct op. Qed.

(** C4: in every state that a sequence of the five operations reaches,
    the snapshot shows at most one node as leader; so does the
    snapshot that any further operation hands back. *)
Theorem at_most_one_leader (roster : list string) (ops : list Op) :
  (leader_count (snapshot (run roster ops)) ≤ 1)%nat ∧
  ∀ op, (leader_count (reply_snapshot (step roster op (run roster ops)).2) ≤ 1)%nat.
Proof.
  split.
  - apply leader_count_consistent, run_consistent.
  - intros op. rewrite step_reply_snapshot, <- run_snoc.
    apply leader_count_consistent, run_consistent.
Qed.

Lemma tally_append c v name :
  tally (mkCluster (nodes c) (cluster_term c) (candidates c) (ledger c ++ [v])) name =
  (tally c name + (if decide (candidateName v = name) then 1 else 0))%nat.
Proof.
  unfold tally. simpl. rewrite filter_app, length_app. f_equal.
  rewrite filter_cons, filter_nil. by case_decide.
Qed.

Lemma castVote_duplicate voter name c :
  has_voted voter c = true →
  castVote voter name c = (c, vote_rejections voter name c) ∧
  DuplicateVoter voter ∈ vote_rejections voter name c ∧
  (name ∈ candidates c → vote_rejections voter name c = [DuplicateVoter voter]).
Proof.
  intros Hv. unfold castVote, vote_rejections. rewrite Hv.
  case_decide; simpl; repeat split; try done.
  - left.
  - right. left.
Qed.

Lemma castVote_accepted voter name c :
  vote_rejections voter name c = [] →
  castVote voter name c =
    (mkCluster (nodes c) (cluster_term c) (candidates c) (ledger c ++ [mkVote voter name]),
     [VoteAccepted voter name]).
Proof. intros Hok. unfold castVote. by rewrite Hok. Qed.

(** C5: a voter with a recorded vote is turned away with DuplicateVoter
    and the cluster, its ledger and every tally stay as they were; so
    when a vote of [voter] for [a] has just been accepted, a vote of
    the same voter for [b] is rejected, the tally of [a] stays one
    above what it was before the first vote and the tally of another
    candidate [b] stays what it was. *)
Theorem duplicate_voter_rejected (c : Cluster) (voter a b : string) :
  (has_voted voter c = true →
     DuplicateVoter voter ∈ (castVote voter b c).2 ∧
     (b ∈ candidates c → (castVote voter b c).2 = [DuplicateVoter voter]) ∧
     (castVote voter b c).1 = c ∧
     ∀ name, tally (castVote voter b c).1 name = tally c name) ∧
  (vote_rejections voter a c = [] →
     let c1 := (castVote voter a c).1 in
     (castVote voter a c).2 = [VoteAccepted voter a] ∧
     DuplicateVoter voter ∈ (castVote voter b c1).2 ∧
     (b ∈ candidates c → (castVote voter b c1).2 = [DuplicateVoter voter]) ∧
     ledger (castVote voter b c1).1 = (ledger c ++ [mkVote voter a])%list ∧
     tally (castVote voter b c1).1 a = S (tally c a) ∧
     (a ≠ b → tally (castVote voter b c1).1 b = tally c b)).
Proof.
  split.
  - intros Hv. destruct (castVote_duplicate voter b c Hv) as (-> & Hin & Honly).
    by repeat split.
  - intros Hok. rewrite (castVote_accepted _ _ _ Hok). simpl.
    set (c1 := mkCluster _ _ _ _).
    assert (Hv : has_voted voter c1 = true).
    { apply bool_decide_eq_true. simpl. rewrite fmap_app. set_solver. }
    destruct (castVote_duplicate voter b c1 Hv) as (-> & Hin & Honly).
    simpl. repeat split; try done.
    + unfold c1. rewrite tally_append. simpl. rewrite decide_True by done. lia.
    + intros Hab. unfold c1. rewrite tally_append. simpl.
      rewrite decide_False by done. lia.
Qed.

Lemma duplicate_voter_rejected_witness :
  (has_voted "v1" alice_voted = true ∧
   (castVote "v1" "Bob" alice_voted).2 = [DuplicateVoter "v1"] ∧
   (castVote "v1" "Bob" alice_voted).1 = alice_voted ∧
   tally (castVote "v1" "Bob" alice_voted).1 "Alice" = tally alice_voted "Alice") ∧
  (vote_rejections "v1" "Alice" nobody_voted = [] ∧
   tally (castVote "v1" "Bob" (castVote "v1" "Alice" nobody_voted).1).1 "Alice"
     = S (tally nobody_voted "Alice") ∧
   tally (castVote "v1" "Bob" (castVote "v1" "Alice" nobody_voted).1).1 "Bob"
     = tally nobody_voted "Bob").
Proof.
  assert (Hv : has_voted "v1" alice_voted = true) by (vm_compute; reflexivity).
  assert (Hok : vote_rejections "v1" "Alice" nobody_voted = [])
    by (vm_compute; reflexivity).
  assert (Hbob : "Bob" ∈ candidates alice_voted) by (vm_compute; right; left).
  destruct (duplicate_voter_rejected alice_voted "v1" "Alice" "Bob") as [Hdup _].
  destruct (duplicate_voter_rejected nobody_voted "v1" "Alice" "Bob") as [_ Hseq].
  destruct (Hdup Hv) as (_ & Honly & Hsame & Htally).
  destruct (Hseq Hok) as (_ & _ & _ & _ & Ha & Hb).
  split.
  - split; [exact Hv|]. split; [exact (Honly Hbob)|]. split; [exact Hsame|].
    apply Htally.
  - split; [exact Hok|]. split; [exact Ha|]. apply Hb. discriminate.
Defined.

Lemma head_unique {A} (l : list A) (x : A) :
  x ∈ l → (∀ y, y ∈ l → y = x) → head l = Some x.
Proof.
  destruct l as [|y l]; [by intros ?%elem_of_nil|].
  intros _ Hall. simpl. f_equal. apply Hall. left.
Qed.

(** C6: when the leader and one more node are UP in a reachable
    cluster, failing the leader leaves a snapshot with a leader that is
    UP and is not the failed node, and the term has grown. *)
Theorem leader_failover (roster : list string) (c : Cluster) (l : string) (n : Node) :
  reachable roster c →
  nodes c !! l = Some n → status n = UP → role n = LEADER →
  (∃ j nj, j ≠ l ∧ nodes c !! j = Some nj ∧ status nj = UP) →
  let c' := (failNode l c).1 in
  ∃ w, snap_leader (snapshot c') = Some w ∧ w ≠ l ∧
       snap_nodes (snapshot c') !! w =
         Some (mkNodeView UP true ((λ name, (name, tally c' name)) <$> candidates c')) ∧
       snap_nodes (snapshot c') !! l =
         Some (mkNodeView DOWN false ((λ name, (name, tally c' name)) <$> candidates c')) ∧
       (cluster_term c < cluster_term c')%nat.
Proof.
  intros Hreach Hl Hup Hrole (j & nj & Hjl & Hj & Hjup).
  pose proof (reachable_consistent _ _ Hreach) as Hc.
  unfold failNode. rewrite Hl, Hup, Hrole.
  set (m1 := <[l := mkNode DOWN FOLLOWER (term n)]> (nodes c)).
  set (c1 := mkCluster m1 _ _ _).
  assert (Hc1 : consistent m1) by by apply fail_consistent.
  assert (Hnone : leader_ids (nodes c1) = []).
  { apply elem_of_nil_inv. intros i Hi.
    apply elem_of_leader_ids in Hi as (ni & Hni & Hiu & Hir).
    simpl in Hni. unfold m1 in Hni. rewrite lookup_insert in Hni.
    case_decide as Hil.
    - by injection Hni as <-.
    - destruct Hc as [_ Huniq]. destruct Hil. symmetry. by eapply Huniq. }
  assert (Hsome : up_ids (nodes c1) ≠ []).
  { intros Hnil. assert (Hin : j ∈ up_ids (nodes c1)).
    { apply elem_of_up_ids. exists nj. split; [|done].
      simpl. unfold m1. by rewrite lookup_insert_ne. }
    rewrite Hnil in Hin. by apply elem_of_nil in Hin. }
  destruct (electIfNeeded_elects c1 Hnone Hsome) as (w & nw & _ & Hw & Hwup & ->).
  simpl in *.
  assert (Hwl : w ≠ l).
  { intros ->. unfold m1 in Hw. rewrite lookup_insert_eq in Hw.
    injection Hw as <-. done. }
  pose proof (elected_lookup_winner (S (cluster_term c)) w m1 nw Hw Hwup) as Hlw.
  pose proof (elected_consistent (S (cluster_term c)) w m1 nw Hw Hwup Hnone Hc1) as [_ Hu].
  exists w. repeat split.
  - apply head_unique.
    + apply elem_of_leader_ids. by eexists.
    + intros y Hy. apply elem_of_leader_ids in Hy as (ny & Hny & _ & Hyr).
      by eapply Hu.
  - done.
  - by rewrite lookup_fmap, Hlw.
  - rewrite lookup_fmap, elected_lookup_other by done.
    unfold m1. by rewrite lookup_insert_eq.
  - lia.
Qed.

Lemma leader_failover_witness :
  nodes three_nodes !! "n1" = Some (mkNode UP LEADER 1) ∧
  nodes three_nodes !! "n2" = Some (mkNode UP FOLLOWER 0) ∧
  ∃ w, snap_leader (snapshot (failNode "n1" three_nodes).1) = Some w ∧ w ≠ "n1" ∧
       snap_nodes (snapshot (failNode "n1" three_nodes).1) !! w =
         Some (mkNodeView UP true
                 ((λ name, (name, tally (failNode "n1" three_nodes).1 name))
                    <$> candidates (failNode "n1" three_nodes).1)) ∧
       snap_nodes (snapshot (failNode "n1" three_nodes).1) !! "n1" =
         Some (mkNodeView DOWN false
                 ((λ name, (name, tally (failNode "n1" three_nodes).1 name))
                    <$> candidates (failNode "n1" three_nodes).1)) ∧
       (cluster_term three_nodes < cluster_term (failNode "n1" three_nodes).1)%nat.
Proof.
  assert (H1 : nodes three_nodes !! "n1" = Some (mkNode UP LEADER 1))
    by (vm_compute; reflexivity).
  assert (H2 : nodes three_nodes !! "n2" = Some (mkNode UP FOLLOWER 0))
    by (vm_compute; reflexivity).
  split; [exact H1|]. split; [exact H2|].
  apply (leader_failover ["n1"; "n2"; "n3"] three_nodes "n1" (mkNode UP LEADER 1)).
  - exists [Initialize]. reflexivity.
  - exact H1.
  - reflexivity.
  - reflexivity.
  - exists "n2", (mkNode UP FOLLOWER 0).
    split; [discriminate|]. split; [exact H2|reflexivity].
Defined.

End ClusterClaims.

(** * What the script does to the page and what it sends *)

Section ClientFacts.
Import Js Client.
Context {browser : Browser} {S : Type} {network : Network S}.

Lemma same_but_page_refl (w : World S) : same_but_page w w.
Proof. by repeat split. Qed.

Lemma same_but_page_trans (w1 w2 w3 : World S) :
  same_but_page w1 w2 → same_but_page w2 w3 → same_but_page w1 w3.
Proof. intros (?&?&?&?) (?&?&?&?). repeat split; congruence. Qed.

Lemma page_only_ret {A} (a : A) : page_only (ret a : M S A).
Proof. intros w. apply same_but_page_refl. Qed.

Lemma page_only_throw {A} e : page_only (throw e : M S A).
Proof. intros w. apply same_but_page_refl. Qed.

Lemma page_only_lift_js {A} site (o : option A) : page_only (lift_js site o : M S A).
Proof. destruct o; [apply page_only_ret | apply page_only_throw]. Qed.

Lemma page_only_modify_page f : page_only (modify_page f : M S unit).
Proof. intros w. by repeat split. Qed.

Lemma page_only_get_page : page_only (get_page : M S Page).
Proof. intros w. apply same_but_page_refl. Qed.

Lemma page_only_bind {A B} (m : M S A) (f : A → M S B) :
  page_only m → (∀ a, page_only (f a)) → page_only (bind m f).
Proof.
  intros Hm Hf w. unfold bind. specialize (Hm w).
  destruct (m w) as [[a|e] w1]; simpl in *; [|done].
  eapply same_but_page_trans; [exact Hm | apply Hf].
Qed.

Lemma page_only_try_catch {A} (block : M S A) handler :
  page_only block → (∀ e, page_only (handler e)) → page_only (try_catch block handler).
Proof.
  intros Hb Hh w. unfold try_catch. specialize (Hb w).
  destruct (block w) as [[a|e] w1]; simpl in *; [done|].
  eapply same_but_page_trans; [exact Hb | apply Hh].
Qed.

Lemma page_only_forEach {A} (f : A → M S unit) (l : list A) :
  (∀ a, page_only (f a)) → page_only (forEach f l).
Proof.
  intros Hf. induction l as [|x l IH]; simpl.
  - apply page_only_ret.
  - apply page_only_bind; [apply Hf | by intros _].
Qed.

Lemma page_only_mapM {A B} (f : A → M S B) (l : list A) :
  (∀ a, page_only (f a)) → page_only (mapM f l).
Proof.
  intros Hf. induction l as [|x l IH]; simpl.
  - apply page_only_ret.
  - apply page_only_bind; [apply Hf | intros y].
    apply page_only_bind; [exact IH | intros ys]. apply page_only_ret.
Qed.

Ltac page_only_step :=
  match goal with
  | |- page_only (bind _ _) => apply page_only_bind; [|intros ?]
  | |- page_only (forEach _ _) => apply page_only_forEach; intros ?
  | |- page_only (mapM _ _) => apply page_only_mapM; intros ?
  | |- page_only (ret _) => apply page_only_ret
  | |- page_only (throw _) => apply page_only_throw
  | |- page_only (lift_js _ _) => apply page_only_lift_js
  | |- page_only (modify_page _) => apply page_only_modify_page
  | |- page_only get_page => apply page_only_get_page
  | |- page_only (if ?b then _ else _) => destruct b
  | |- page_only (match ?x with _ => _ end) => destruct x
  end.

Lemma page_only_append_line line : page_only (append_line line : M S unit).
Proof. unfold append_line. repeat page_only_step. Qed.

Lemma page_only_appendLog logArray : page_only (appendLog logArray : M S unit).
Proof.
  unfold appendLog. destruct (negb (truthy logArray)); [apply page_only_ret|].
  destruct logArray; try apply page_only_throw.
  apply page_only_bind; [|intros _; apply page_only_modify_page].
  apply page_only_forEach, page_only_append_line.
Qed.

Lemma page_only_updateUI state : page_only (updateUI state : M S unit).
Proof. unfold updateUI. repeat page_only_step. Qed.

(** ** The lines [appendLog] adds for an array of strings *)

Lemma with_page_id (w : World S) : with_page (page w) w = w.
Proof. by destruct w. Qed.

Lemma set_logPanel_id (p : Page) : set_logPanel (logPanel p) p = p.
Proof. by destruct p. Qed.

Lemma append_line_string text (w : World S) :
  append_line (JStr text) w =
  (Returned (),
   with_page (set_logPanel (logPanel (page w) ++ [log_line text]) (page w)) w).
Proof.
  unfold append_line, bind, lift_js, log_line, log_class. simpl.
  destruct (str_includes "!!" text); simpl; [done|].
  destruct (str_includes "down" text); simpl; [done|].
  by destruct (str_includes "LEADER" text).
Qed.

Lemma forEach_strings lines (w : World S) :
  forEach append_line (JStr <$> lines) w =
  (Returned (),
   with_page (set_logPanel (logPanel (page w) ++ (log_line <$> lines)) (page w)) w).
Proof.
  revert w. induction lines as [|text lines IH]; intros w.
  - simpl. by rewrite app_nil_r, set_logPanel_id, with_page_id.
  - simpl. unfold bind at 1. rewrite append_line_string, IH. simpl.
    by rewrite <- app_assoc.
Qed.

Lemma appendLog_strings lines (w : World S) :
  appendLog (JArr (JStr <$> lines)) w = (Returned (), with_page (logged lines (page w)) w).
Proof.
  unfold appendLog. simpl. unfold bind. by rewrite forEach_strings.
Qed.

Lemma appendLog_one text (w : World S) :
  appendLog (JArr [JStr text]) w = (Returned (), with_page (logged [text] (page w)) w).
Proof. exact (appendLog_strings [text] w). Qed.

(** ** The requests [apiCall] sends *)

Lemma emits_page_only {A} (Q : list Request → Prop) (m : M S A) :
  page_only m → Q [] → emits Q m.
Proof.
  intros Hm HQ w. destruct (Hm w) as (Hs & Ha & Hi & _).
  exists []. by rewrite app_nil_r.
Qed.

Lemma emits_weaken {A} (P Q : list Request → Prop) (m : M S A) :
  (∀ l, P l → Q l) → emits P m → emits Q m.
Proof. intros HPQ Hm w. destruct (Hm w) as (more & ?&?&?&?). exists more. auto. Qed.

Lemma emits_bind_l {A B} Q (m : M S A) (f : A → M S B) :
  page_only m → (∀ a, emits Q (f a)) → Q [] → emits Q (bind m f).
Proof.
  intros Hm Hf HQ w. unfold bind. destruct (Hm w) as (Hs & Ha & Hi & _).
  destruct (m w) as [[a|e] w1]; simpl in *.
  - destruct (Hf a w1) as (more & Hs' & HQ' & Ha' & Hi').
    exists more. repeat split; congruence.
  - exists []. by rewrite app_nil_r.
Qed.

Lemma emits_bind_r {A B} Q (m : M S A) (f : A → M S B) :
  emits Q m → (∀ a, page_only (f a)) → emits Q (bind m f).
Proof.
  intros Hm Hf w. unfold bind. destruct (Hm w) as (more & Hs & HQ & Ha & Hi).
  destruct (m w) as [[a|e] w1]; simpl in *.
  - destruct (Hf a w1) as (Hs' & Ha' & Hi' & _).
    exists more. repeat split; congruence.
  - by exists more.
Qed.

Lemma emits_fetch_then {A} req (f : Response → M S A) :
  (∀ r, page_only (f r)) → emits (λ l, l = [req]) (bind (fetch req) f).
Proof.
  intros Hf w. unfold bind, fetch.
  destruct (serve (server w) req) as [[reason|r] s']; simpl.
  - by exists [req].
  - set (w1 := mkWorld _ _ _ _ _). destruct (Hf r w1) as (Hs & Ha & Hi & _).
    exists [req]. by repeat split.
Qed.

Lemma emits_try_fetch {A} Q req (k : Response → M S A) handler :
  (∀ r, emits Q (k r)) → Q [] → (∀ e, page_only (handler e)) →
  emits (λ l, ∃ more, l = req :: more ∧ Q more)
        (try_catch (bind (fetch req) k) handler).
Proof.
  intros Hk HQ Hh w. unfold try_catch, bind, fetch.
  destruct (serve (server w) req) as [[reason|r] s']; simpl.
  - set (w1 := mkWorld _ _ _ _ _).
    destruct (Hh (mkError "TypeError" reason) w1) as (Hs & Ha & Hi & _).
    exists [req]. repeat split; try done. by exists [].
  - set (w1 := mkWorld _ _ _ _ _).
    destruct (Hk r w1) as (more & Hs & HQ' & Ha & Hi).
    assert (Hgoal : sent (k r w1).2 = sent w ++ req :: more).
    { rewrite Hs. simpl. by rewrite <- app_assoc. }
    destruct (k r w1) as [[a|e] w2]; simpl in *.
    + exists (req :: more). repeat split; try done. by exists more.
    + destruct (Hh e w2) as (Hs' & Ha' & Hi' & _).
      exists (req :: more). repeat split; try congruence. by exists more.
Qed.

Lemma apiCall_emits endpoint method body :
  emits (λ l, ∃ more, l = api_request endpoint method body :: more ∧ fallback_or_none more)
        (apiCall endpoint method body : M S unit).
Proof.
  intros w. unfold apiCall. unfold bind at 1. simpl.
  set (w1 := with_page _ w).
  match goal with
  | |- context [try_catch (bind (fetch ?req) ?k) ?h] =>
      pose proof (emits_try_fetch fallback_or_none req k h) as Hemit
  end.
  destruct Hemit with (w := w1) as (more & Hs & HQ & Ha & Hi).
  - intros r. destruct (negb (ok r)).
    + apply emits_page_only; [apply page_only_throw | by left].
    + apply emits_bind_l;
        [unfold response_json; destruct (json r); repeat page_only_step | | by left].
      intros data. apply emits_bind_l; [apply page_only_lift_js | | by left].
      intros log. apply emits_bind_l; [apply page_only_appendLog | | by left].
      intros _. apply emits_bind_l; [apply page_only_lift_js | | by left].
      intros state. apply emits_bind_r; [|intros arg; apply page_only_updateUI].
      destruct (truthy state).
      * apply emits_page_only; [apply page_only_ret | by left].
      * eapply emits_weaken; [|apply emits_fetch_then].
        -- intros l ->. by right.
        -- intros again. unfold response_json. destruct (json again); repeat page_only_step.
  - by left.
  - intros e. apply page_only_appendLog.
  - exists more. by repeat split.
Qed.

Lemma apiCall_returns endpoint method body (w : World S) :
  (apiCall endpoint method body w).1 = Returned ().
Proof.
  unfold apiCall. unfold bind at 1. simpl. unfold try_catch.
  match goal with |- context [bind ?m ?k ?w1] => destruct (bind m k w1) as [[[]|e] w2] end.
  - done.
  - by rewrite appendLog_one.
Qed.

End ClientFacts.

(** * The claims about the client *)

Section ClientClaims.
Import Js Client.
Context {browser : Browser} {S : Type} {network : Network S}.

Lemma issued_app (w w' : World S) more :
  sent w' = sent w ++ more → issued w w' = more.
Proof. intros Hs. unfold issued. by rewrite Hs, drop_app_length. Qed.

(** C9: given null or undefined, [appendLog] and [updateUI] return at
    once, without an error, and leave the page and everything else as
    it was. *)
Theorem missing_data_is_ignored (w : World S) :
  appendLog JNull w = (Returned (), w) ∧
  appendLog JUndefined w = (Returned (), w) ∧
  updateUI JNull w = (Returned (), w) ∧
  updateUI JUndefined w = (Returned (), w).
Proof. by repeat split. Qed.

Lemma apiCall_failed (w : World S) endpoint method body res s' msg :
  serve (server w) (api_request endpoint method body) = (res, s') →
  failure res = Some msg →
  apiCall endpoint method body w =
    (Returned (),
     mkWorld (logged ["API Error: " +:+ msg]
                (set_logPanel (logPanel (page w) ++ [firing_line endpoint]) (page w)))
             (sent w ++ [api_request endpoint method body])
             (alerts w) (intervals w) s').
Proof.
  intros Hserve Hfail. unfold apiCall. unfold bind at 1. simpl.
  unfold try_catch. unfold bind at 1. unfold fetch. simpl.
  fold (api_request endpoint method body). rewrite Hserve.
  destruct res as [reason|r]; simpl in Hfail.
  - injection Hfail as <-. simpl. by rewrite appendLog_one.
  - destruct (ok r); [done|]. injection Hfail as <-. simpl.
    by rewrite appendLog_one.
Qed.

(** When the request [apiCall] makes for its endpoint fails, by a
    rejected fetch or a status that is not OK, the log gains the firing
    line and exactly one line "API Error: ..." with the message of the
    failure, while the candidate list, the status panel and the input
    fields stay as they were; the request is the only one sent. *)
Lemma failed_request_logs_one_error
    (w : World S) (endpoint method : string) (body : JValue)
    (res : FetchResult) (s' : S) (msg : string) :
  serve (server w) (api_request endpoint method body) = (res, s') →
  failure res = Some msg →
  (apiCall endpoint method body w).1 = Returned () ∧
  logPanel (page (apiCall endpoint method body w).2) =
    logPanel (page w) ++ [firing_line endpoint; log_line ("API Error: " +:+ msg)] ∧
  candidateList (page (apiCall endpoint method body w).2) = candidateList (page w) ∧
  statusContainer (page (apiCall endpoint method body w).2) = statusContainer (page w) ∧
  candidateNameInput (page (apiCall endpoint method body w).2)
    = candidateNameInput (page w) ∧
  voterIdInput (page (apiCall endpoint method body w).2) = voterIdInput (page w) ∧
  sent (apiCall endpoint method body w).2 = sent w ++ [api_request endpoint method body] ∧
  server (apiCall endpoint method body w).2 = s'.
Proof.
  intros Hserve Hfail. rewrite (apiCall_failed _ _ _ _ _ _ _ Hserve Hfail). simpl.
  rewrite <- app_assoc. by repeat split.
Qed.

Lemma truthy_string (s : string) : truthy (JStr s) = true ↔ s ≠ "".
Proof.
  simpl. rewrite negb_true_iff. split.
  - intros He ->. by rewrite String.eqb_refl in He.
  - intros Hne. by apply String.eqb_neq.
Qed.

Lemma castVote_empty candidateName (w : World S) :
  voterIdInput (page w) = "" →
  castVote candidateName w =
    (Returned (),
     mkWorld (page w) (sent w) (alerts w ++ ["Please enter a Voter ID."])
             (intervals w) (server w)).
Proof. intros He. unfold castVote, bind, get_page. by rewrite He. Qed.

Lemma castVote_filled candidateName (w : World S) :
  voterIdInput (page w) ≠ "" →
  castVote candidateName w =
    apiCall "/api/vote" "POST"
      (JObj [("voterId", JStr (voterIdInput (page w)));
             ("candidateName", JStr candidateName)]) w.
Proof.
  intros Hne%truthy_string. unfold castVote, bind, get_page. by rewrite Hne.
Qed.

Lemma addCandidate_empty (w : World S) :
  candidateNameInput (page w) = "" → addCandidate w = (Returned (), w).
Proof. intros He. unfold addCandidate, bind, get_page. by rewrite He. Qed.

Lemma addCandidate_filled (w : World S) :
  candidateNameInput (page w) ≠ "" →
  let sent_off := (apiCall "/api/add-candidate" "POST"
                     (JObj [("name", JStr (candidateNameInput (page w)))]) w).2 in
  addCandidate w =
    (Returned (), with_page (set_candidateNameInput "" (page sent_off)) sent_off).
Proof.
  intros Hne%truthy_string. unfold addCandidate. unfold bind at 1. unfold get_page.
  rewrite Hne. unfold bind.
  pose proof (apiCall_returns "/api/add-candidate" "POST"
                (JObj [("name", JStr (candidateNameInput (page w)))]) w) as Hret.
  destruct (apiCall _ _ _ w) as [[[]|e] w1]; by simpl in *.
Qed.

Lemma fallback_not (u : string) more :
  u ≠ "/api/get-state" → fallback_or_none more →
  ¬ ∃ r, r ∈ more ∧ url r = u.
Proof.
  intros Hu [-> | ->] (r & Hin & Hr).
  - by apply elem_of_nil in Hin.
  - apply list_elem_of_singleton in Hin as ->. by destruct Hu.
Qed.

(** C10: [castVote] sends a request to /api/vote exactly when the voter
    id field is not empty; with an empty field it sends nothing and
    changes nothing but for the alert it shows.  [addCandidate] sends a
    request to /api/add-candidate exactly when the name field is not
    empty, and then leaves the field empty; with an empty field it
    changes nothing at all. *)
Theorem requests_need_input (w : World S) (candidateName : string) :
  ((∃ r, r ∈ issued w (castVote candidateName w).2 ∧ url r = "/api/vote")
     ↔ voterIdInput (page w) ≠ "") ∧
  (voterIdInput (page w) = "" →
     castVote candidateName w =
       (Returned (),
        mkWorld (page w) (sent w) (alerts w ++ ["Please enter a Voter ID."])
                (intervals w) (server w))) ∧
  (voterIdInput (page w) ≠ "" →
     ∃ more, issued w (castVote candidateName w).2 =
               vote_request (voterIdInput (page w)) candidateName :: more ∧
             fallback_or_none more) ∧
  ((∃ r, r ∈ issued w (addCandidate w).2 ∧ url r = "/api/add-candidate")
     ↔ candidateNameInput (page w) ≠ "") ∧
  (candidateNameInput (page w) = "" → addCandidate w = (Returned (), w)) ∧
  (candidateNameInput (page w) ≠ "" →
     candidateNameInput (page (addCandidate w).2) = "" ∧
     ∃ more, issued w (addCandidate w).2 =
               add_candidate_request (candidateNameInput (page w)) :: more ∧
             fallback_or_none more).
Proof.
  assert (Hvote : voterIdInput (page w) ≠ "" →
     ∃ more, issued w (castVote candidateName w).2 =
               vote_request (voterIdInput (page w)) candidateName :: more ∧
             fallback_or_none more).
  { intros Hne. rewrite castVote_filled by done.
    destruct (apiCall_emits "/api/vote" "POST"
                (JObj [("voterId", JStr (voterIdInput (page w)));
                       ("candidateName", JStr candidateName)]) w)
      as (l & Hs & (more & -> & Hmore) & _).
    exists more. split; [|done]. by apply issued_app. }
  assert (Hadd : candidateNameInput (page w) ≠ "" →
     candidateNameInput (page (addCandidate w).2) = "" ∧
     ∃ more, issued w (addCandidate w).2 =
               add_candidate_request (candidateNameInput (page w)) :: more ∧
             fallback_or_none more).
  { intros Hne. rewrite addCandidate_filled by done. simpl. split; [done|].
    destruct (apiCall_emits "/api/add-candidate" "POST"
                (JObj [("name", JStr (candidateNameInput (page w)))]) w)
      as (l & Hs & (more & -> & Hmore) & _).
    exists more. split; [|done]. by apply issued_app. }
  repeat split.
  - intros (r & Hin & Hr) He. rewrite castVote_empty in Hin by done.
    unfold issued in Hin. simpl in Hin. rewrite drop_all in Hin.
    by apply elem_of_nil in Hin.
  - intros Hne. destruct (Hvote Hne) as (more & -> & _).
    eexists. split; [left|done].
  - apply castVote_empty.
  - exact Hvote.
  - intros (r & Hin & Hr) He. rewrite addCandidate_empty in Hin by done.
    unfold issued in Hin. simpl in Hin. rewrite drop_all in Hin.
    by apply elem_of_nil in Hin.
  - intros Hne. destruct (Hadd Hne) as (_ & more & -> & _).
    eexists. split; [left|done].
  - apply addCandidate_empty.
  - by apply Hadd.
  - by apply Hadd.
Qed.


Lemma initializeSystem_sends (w : World S) :
  (initializeSystem w).1 = Returned () ∧
  ∃ more, sent (initializeSystem w).2 = sent w ++ initialize_request :: more ∧
          fallback_or_none more ∧
          alerts (initializeSystem w).2 = alerts w ∧
          intervals (initializeSystem w).2 = intervals w.
Proof.
  unfold initializeSystem. unfold bind. simpl.
  set (w1 := with_page _ w).
  pose proof (apiCall_returns "/api/initialize" "POST" JNull w1) as Hret.
  destruct (apiCall_emits "/api/initialize" "POST" JNull w1)
    as (l & Hs & (more & -> & Hmore) & Ha & Hi).
  destruct (apiCall _ _ _ w1) as [[[]|e] w2]; simpl in *; [|done].
  split; [done|]. by exists more.
Qed.

Lemma onload_sends (w : World S) :
  ∃ more, sent (onload w).2 = sent w ++ initialize_request :: more ∧
          fallback_or_none more ∧
          intervals (onload w).2 = intervals w ++ [(SyncState, 15000%Z)].
Proof.
  unfold onload, bind.
  destruct (initializeSystem_sends w) as (Hret & more & Hs & Hmore & _ & Hi).
  destruct (initializeSystem w) as [[[]|e] w1]; simpl in *; [|done].
  exists more. by rewrite Hi.
Qed.

Lemma is_read_poll : is_read poll_request.
Proof. by repeat split. Qed.

Lemma is_read_fallback : is_read get_state_request.
Proof. by repeat split. Qed.

Lemma fallback_reads more : fallback_or_none more → Forall is_read more.
Proof.
  intros [-> | ->]; [constructor|].
  constructor; [apply is_read_fallback | constructor].
Qed.

Lemma tick_reads (w : World S) (k : nat) :
  ∃ reads, sent (dispatch w (TimerFires k)) = sent w ++ reads ∧
           Forall is_read reads ∧
           intervals (dispatch w (TimerFires k)) = intervals w.
Proof.
  unfold dispatch. simpl. destruct (intervals w !! k) as [[[] delay]|]; simpl.
  - destruct (apiCall_emits "/api/get-state" "GET" JNull w)
      as (l & Hs & (more & -> & Hmore) & _ & Hi).
    eexists. split; [exact Hs|]. split; [|done].
    constructor; [apply is_read_poll | by apply fallback_reads].
  - exists []. by rewrite app_nil_r.
Qed.

Lemma ticks_read (w : World S) (ks : list nat) :
  ∃ reads, sent (run w (TimerFires <$> ks)) = sent w ++ reads ∧
           Forall is_read reads ∧
           intervals (run w (TimerFires <$> ks)) = intervals w.
Proof.
  revert w. induction ks as [|k ks IH]; intros w.
  - exists []. by rewrite app_nil_r.
  - change (run w (TimerFires <$> k :: ks))
      with (run (dispatch w (TimerFires k)) (TimerFires <$> ks)).
    destruct (tick_reads w k) as (r1 & Hs1 & Hr1 & Hi1).
    destruct (IH (dispatch w (TimerFires k))) as (r2 & Hs2 & Hr2 & Hi2).
    exists (r1 ++ r2). rewrite Hs2, Hs1, Hi2, Hi1.
    split; [by rewrite app_assoc|]. split; [by apply Forall_app|done].
Qed.

Lemma tick_polls (w : World S) (k : nat) :
  ∃ more, fallback_or_none more ∧
          sent (dispatch w (TimerFires k)) =
            sent w ++ match intervals w !! k with
                      | Some _ => poll_request :: more
                      | None => []
                      end ∧
          intervals (dispatch w (TimerFires k)) = intervals w.
Proof.
  unfold dispatch. simpl. destruct (intervals w !! k) as [[[] delay]|]; simpl.
  - destruct (apiCall_emits "/api/get-state" "GET" JNull w)
      as (l & Hs & (more & -> & Hmore) & _ & Hi).
    by exists more.
  - exists []. split; [by left|]. by rewrite app_nil_r.
Qed.

Lemma ticks_polled (w : World S) (ks : list nat) :
  Forall (λ k, k < length (intervals w))%nat ks →
  ∃ reads, Views.polled (length ks) reads ∧
           sent (run w (TimerFires <$> ks)) = sent w ++ reads.
Proof.
  revert w. induction ks as [|k ks IH]; intros w Hks.
  - exists []. split; [done|]. by rewrite app_nil_r.
  - apply Forall_cons in Hks as [Hk Hks].
    change (run w (TimerFires <$> k :: ks))
      with (run (dispatch w (TimerFires k)) (TimerFires <$> ks)).
    destruct (tick_polls w k) as (more & Hmore & Hs & Hi).
    destruct (lookup_lt_is_Some_2 (intervals w) k Hk) as [timer Htimer].
    rewrite Htimer in Hs.
    destruct (IH (dispatch w (TimerFires k))) as (rest & Hrest & Hs').
    { by rewrite Hi. }
    exists (poll_request :: more ++ rest). split.
    + by exists more, rest.
    + rewrite Hs', Hs, <- app_assoc. by rewrite <- app_comm_cons.
Qed.

(** C3: when the page has loaded and only its timer fires from then
    on, the requests sent are one initialize followed by reads of
    /api/get-state alone, and the one timer set has a period of 15000
    milliseconds; a firing of a timer sends reads only, in whatever
    state it finds the page.  And the timer does poll: the firing of a
    timer that is set sends first of all the GET of /api/get-state, and
    after it at most the fallback read, while the firing of one that is
    not set sends nothing; so the page that has loaded and then seen
    its timers fire [n] times has sent the initialize and then [n]
    polls, each with its fallback read or without. *)
Theorem polling_only_reads (w : World S) (ks : list nat) :
  (∃ reads, issued w (run w (Load :: (TimerFires <$> ks))) = initialize_request :: reads ∧
            Forall is_read reads) ∧
  intervals (run w (Load :: (TimerFires <$> ks))) = intervals w ++ [(SyncState, 15000%Z)] ∧
  (∀ k, Forall is_read (issued w (dispatch w (TimerFires k))) ∧
        intervals (dispatch w (TimerFires k)) = intervals w) ∧
  (∀ k, ∃ more, fallback_or_none more ∧
                issued w (dispatch w (TimerFires k)) =
                  match intervals w !! k with
                  | Some _ => poll_request :: more
                  | None => []
                  end) ∧
  (Forall (λ k, k ≤ length (intervals w))%nat ks →
   ∃ more reads, fallback_or_none more ∧ Views.polled (length ks) reads ∧
                 issued w (run w (Load :: (TimerFires <$> ks)))
                   = initialize_request :: more ++ reads).
Proof.
  destruct (onload_sends w) as (more & Hs & Hmore & Hi).
  destruct (ticks_read (dispatch w Load) ks) as (reads & Hs' & Hreads & Hi').
  change (run w (Load :: (TimerFires <$> ks)))
    with (run (dispatch w Load) (TimerFires <$> ks)).
  change (dispatch w Load) with (onload w).2 in *.
  split; [|split; [|split; [|split]]].
  - exists (more ++ reads). split.
    + apply issued_app. rewrite Hs', Hs. by rewrite <- app_assoc.
    + apply Forall_app. split; [by apply fallback_reads | done].
  - by rewrite Hi', Hi.
  - intros k. split.
    + destruct (tick_reads w k) as (r & Hr & Hall & _).
      by rewrite (issued_app _ _ _ Hr).
    + by destruct (tick_reads w k) as (r & _ & _ & Hk).
  - intros k. destruct (tick_polls w k) as (extra & Hextra & Hsent & _).
    exists extra. split; [done|]. by apply issued_app.
  - intros Hks.
    destruct (ticks_polled (onload w).2 ks) as (polls & Hpolls & Hsent).
    { rewrite Hi, length_app. simpl.
      eapply Forall_impl; [exact Hks|]. intros k Hk. simpl in Hk. lia. }
    exists more, polls. split; [done|]. split; [done|].
    apply issued_app. rewrite Hsent, Hs, <- app_assoc. by rewrite <- app_comm_cons.
Qed.


Lemma apiCall_no_fallback (w : World S) endpoint method body r s' data st :
  serve (server w) (api_request endpoint method body) = (Resolved r, s') →
  ok r = true → json r = Some data →
  get "state" data = Some st → truthy st = true →
  sent (apiCall endpoint method body w).2 = sent w ++ [api_request endpoint method body] ∧
  server (apiCall endpoint method body w).2 = s'.
Proof.
  intros Hserve Hok Hjson Hstate Htruthy.
  assert (Hlog : ∃ lg, get "log" data = Some lg)
    by (destruct data; simpl in *; eauto; discriminate).
  destruct Hlog as [lg Hlog].
  set (P := λ w' : World S,
         sent w' = sent w ++ [api_request endpoint method body] ∧ server w' = s').
  change (P (apiCall endpoint method body w).2).
  unfold apiCall. unfold bind at 1. simpl.
  unfold try_catch. unfold bind at 1. unfold fetch. simpl.
  fold (api_request endpoint method body). rewrite Hserve, Hok. simpl.
  unfold response_json. rewrite Hjson. unfold bind at 1. unfold ret at 1.
  rewrite Hlog. unfold lift_js at 1. unfold bind at 1. unfold ret at 1.
  set (w2 := mkWorld _ _ _ _ s').
  unfold bind at 1.
  destruct (page_only_appendLog lg w2) as (Hs3 & _ & _ & Hv3).
  destruct (appendLog lg w2) as [[[]|e] w3]; simpl in Hs3, Hv3.
  - rewrite Hstate. unfold lift_js at 1. unfold bind at 1. unfold ret at 1.
    rewrite Htruthy. unfold bind at 1. unfold ret at 1.
    destruct (page_only_updateUI st w3) as (Hs4 & _ & _ & Hv4).
    destruct (updateUI st w3) as [[[]|e] w4]; simpl in Hs4, Hv4.
    + unfold P. simpl. by rewrite Hs4, Hs3, Hv4, Hv3.
    + destruct (page_only_appendLog (JArr [JStr ("API Error: " +:+ message e)]) w4)
        as (Hs5 & _ & _ & Hv5).
      unfold P. by rewrite Hs5, Hs4, Hs3, Hv5, Hv4, Hv3.
  - destruct (page_only_appendLog (JArr [JStr ("API Error: " +:+ message e)]) w3)
      as (Hs5 & _ & _ & Hv5).
    unfold P. by rewrite Hs5, Hs3, Hv5, Hv3.
Qed.

Lemma invoking_initialize : Boundary.invoking initialize_request.
Proof. exists Core.Initialize. exact (Boundary.invokes_initialize _). Qed.

Lemma invoking_add_candidate name : Boundary.invoking (add_candidate_request name).
Proof. exists (Core.AddCandidate name). exact (Boundary.invokes_addCandidate _ _). Qed.

Lemma invoking_vote voterId candidateName :
  Boundary.invoking (vote_request voterId candidateName).
Proof.
  exists (Core.CastVote voterId candidateName). exact (Boundary.invokes_castVote _ _ _).
Qed.

Lemma invoking_fail_node node_id : Boundary.invoking (fail_node_request node_id).
Proof. exists (Core.FailNode node_id). exact (Boundary.invokes_failNode _ _). Qed.

Lemma invoking_poll : Boundary.invoking poll_request.
Proof. exists Core.GetSnapshot. exact (Boundary.invokes_getSnapshot _). Qed.

Lemma invoking_fallback : Boundary.invoking get_state_request.
Proof. exists Core.GetSnapshot. exact (Boundary.invokes_getSnapshot _). Qed.

Lemma apiCall_invokes endpoint method body (w : World S) :
  Boundary.invoking (api_request endpoint method body) →
  ∃ more, sent (apiCall endpoint method body w).2 = sent w ++ more ∧
          Forall Boundary.invoking more.
Proof.
  intros Hinv.
  destruct (apiCall_emits endpoint method body w) as (l & Hs & (more & -> & Hmore) & _).
  eexists. split; [exact Hs|]. constructor; [done|].
  destruct Hmore as [-> | ->]; [constructor|].
  constructor; [apply invoking_fallback | constructor].
Qed.

Lemma nothing_sent (w w' : World S) :
  sent w' = sent w → ∃ more, sent w' = sent w ++ more ∧ Forall Boundary.invoking more.
Proof. intros ->. exists []. by rewrite app_nil_r. Qed.

Lemma dispatch_invokes (w : World S) (e : Event) :
  ∃ more, sent (dispatch w e) = sent w ++ more ∧ Forall Boundary.invoking more.
Proof.
  destruct e as [|k|[name|node_id]| | |text|text]; unfold dispatch.
  - destruct (onload_sends w) as (more & Hs & Hmore & _).
    eexists. split; [exact Hs|].
    constructor; [apply invoking_initialize|].
    eapply Forall_impl; [by apply fallback_reads|].
    intros [u m hs b] (Hu & Hm & Hb). simpl in *. subst.
    exists Core.GetSnapshot. constructor.
  - destruct (tick_reads w k) as (reads & Hs & Hreads & _).
    eexists. split; [exact Hs|].
    eapply Forall_impl; [exact Hreads|].
    intros [u m hs b] (Hu & Hm & Hb). simpl in *. subst.
    exists Core.GetSnapshot. constructor.
  - simpl. destruct (decide (voterIdInput (page w) = "")) as [He|Hne].
    + rewrite castVote_empty by done. by apply nothing_sent.
    + rewrite castVote_filled by done. apply apiCall_invokes, invoking_vote.
  - simpl. apply apiCall_invokes, invoking_fail_node.
  - destruct (initializeSystem_sends w) as (_ & more & Hs & Hmore & _).
    eexists. split; [exact Hs|].
    constructor; [apply invoking_initialize|].
    destruct Hmore as [-> | ->]; [constructor|].
    constructor; [apply invoking_fallback | constructor].
  - simpl. destruct (decide (candidateNameInput (page w) = "")) as [He|Hne].
    + rewrite addCandidate_empty by done. by apply nothing_sent.
    + rewrite addCandidate_filled by done. simpl.
      apply apiCall_invokes, invoking_add_candidate.
  - by apply nothing_sent.
  - by apply nothing_sent.
Qed.

Lemma run_invokes (w : World S) (es : list Event) :
  ∃ more, sent (run w es) = sent w ++ more ∧ Forall Boundary.invoking more.
Proof.
  revert w. induction es as [|e es IH]; intros w.
  - exists []. by rewrite app_nil_r.
  - change (run w (e :: es)) with (run (dispatch w e) es).
    destruct (dispatch_invokes w e) as (m1 & Hs1 & Hm1).
    destruct (IH (dispatch w e)) as (m2 & Hs2 & Hm2).
    exists (m1 ++ m2). rewrite Hs2, Hs1.
    split; [by rewrite app_assoc | by apply Forall_app].
Qed.

Lemma invokes_route r op : Boundary.Invokes r op → Boundary.route r = Some op.
Proof. by intros []. Qed.

Lemma ask_sends (s : S) (op : Core.Op) :
  Boundary.askable op = true →
  ∃ r, r ∈ sent (run (fresh_world s) (Boundary.ask op)) ∧ Boundary.Invokes r op.
Proof.
  intros Hask. destruct op as [|name|voter name|id|]; simpl in Hask.
  - exists initialize_request. split; [|exact (Boundary.invokes_initialize _)].
    destruct (initializeSystem_sends (fresh_world s)) as (_ & more & Hs & _).
    change (run (fresh_world s) (Boundary.ask Core.Initialize))
      with (initializeSystem (fresh_world s)).2.
    rewrite Hs. set_solver.
  - exists (add_candidate_request name).
    split; [|exact (Boundary.invokes_addCandidate _ _)].
    apply negb_true_iff, String.eqb_neq in Hask.
    set (w1 := dispatch (fresh_world s) (TypeCandidateName name)).
    change (run (fresh_world s) (Boundary.ask (Core.AddCandidate name)))
      with (addCandidate w1).2.
    rewrite (addCandidate_filled w1) by done. simpl.
    destruct (apiCall_emits "/api/add-candidate" "POST"
                (JObj [("name", JStr name)]) w1) as (l & Hs & (more & -> & _) & _).
    change (candidateNameInput (page w1)) with name.
    rewrite Hs. set_solver.
  - exists (vote_request voter name).
    split; [|exact (Boundary.invokes_castVote _ _ _)].
    apply negb_true_iff, String.eqb_neq in Hask.
    set (w1 := dispatch (fresh_world s) (TypeVoterId voter)).
    change (run (fresh_world s) (Boundary.ask (Core.CastVote voter name)))
      with (castVote name w1).2.
    rewrite (castVote_filled name w1) by done.
    destruct (apiCall_emits "/api/vote" "POST"
                (JObj [("voterId", JStr voter); ("candidateName", JStr name)]) w1)
      as (l & Hs & (more & -> & _) & _).
    change (voterIdInput (page w1)) with voter.
    rewrite Hs. set_solver.
  - exists (fail_node_request id).
    split; [|exact (Boundary.invokes_failNode _ _)].
    change (run (fresh_world s) (Boundary.ask (Core.FailNode id)))
      with (failNode id (fresh_world s)).2.
    destruct (apiCall_emits "/api/fail-node" "POST"
                (JObj [("node_id", JStr id)]) (fresh_world s))
      as (l & Hs & (more & -> & _) & _).
    unfold failNode. rewrite Hs. set_solver.
  - exists poll_request. split; [|exact (Boundary.invokes_getSnapshot _)].
    set (w1 := dispatch (fresh_world s) Load).
    change (run (fresh_world s) (Boundary.ask Core.GetSnapshot))
      with (dispatch w1 (TimerFires 0)).
    destruct (onload_sends (fresh_world s)) as (more & _ & _ & Hi).
    change (onload (fresh_world s)).2 with w1 in Hi. simpl in Hi.
    unfold dispatch at 1. simpl. rewrite Hi. simpl.
    destruct (apiCall_emits "/api/get-state" "GET" JNull w1)
      as (l & Hs & (more' & -> & _) & _).
    rewrite Hs. set_solver.
Qed.

(** C2: whatever happens to the page, each request the script sends
    carries one of the five operations, to its endpoint and with its
    inputs and nothing else: a name for addCandidate, a voter id and a
    candidate name for castVote, a node id for failNode, no body for
    initialize and getSnapshot; the boundary takes such a request for
    that operation; and the page can send each of the five (given a
    name or a voter id typed in, where the operation needs one). *)
Theorem five_endpoints (w : World S) (es : list Event) (s : S) :
  Forall Boundary.invoking (issued w (run w es)) ∧
  (∀ r op, Boundary.Invokes r op → Boundary.route r = Some op) ∧
  (∀ op, Boundary.askable op = true →
         ∃ r, r ∈ sent (run (fresh_world s) (Boundary.ask op)) ∧ Boundary.Invokes r op).
Proof.
  split; [|split].
  - destruct (run_invokes w es) as (more & Hs & Hall).
    by rewrite (issued_app _ _ _ Hs).
  - apply invokes_route.
  - apply ask_sends.
Qed.

End ClientClaims.

(** * The client in front of the cluster *)

Section EndToEnd.
Import Js Client.
Context {browser : Browser} (roster : list string).

Local Abbreviation cluster := (Boundary.cluster_serve roster : Network Core.Cluster).

Lemma mutating_reply (op : Core.Op) (c : Core.Cluster) :
  Core.mutating op = true →
  ∃ lg, (Core.step roster op c).2 =
          Core.mkReply (Some lg) (Core.snapshot (Core.step roster op c).1).
Proof. destruct op; try done; intros _; by eexists. Qed.

(** C1: a mutating operation answers with its log and with the
    snapshot of the state it has produced, which the boundary sends as
    the [log] array and the [state] object of the body; and on such an
    answer [apiCall] sends no second request: the request of the call
    is the only one, and the cluster has taken that one step. *)
Theorem mutating_reply_suffices
    (op : Core.Op) (c : Core.Cluster)
    (w : World Core.Cluster) (endpoint method : string) (body : JValue) :
  Core.mutating op = true →
  (∃ lg, (Core.step roster op c).2 =
           Core.mkReply (Some lg) (Core.snapshot (Core.step roster op c).1) ∧
         Boundary.encode_reply (Core.step roster op c).2 =
           JObj [("log", JArr ((λ e, JStr (Boundary.describe e)) <$> lg));
                 ("state", Boundary.encode_snapshot
                             (Core.snapshot (Core.step roster op c).1))]) ∧
  (Boundary.route (api_request endpoint method body) = Some op →
   sent (apiCall (network := cluster) endpoint method body w).2 =
     sent w ++ [api_request endpoint method body] ∧
   server (apiCall (network := cluster) endpoint method body w).2 =
     (Core.step roster op (server w)).1).
Proof.
  intros Hmut. split.
  - destruct (mutating_reply op c Hmut) as [lg Hlg].
    exists lg. split; [done|]. by rewrite Hlg.
  - intros Hroute.
    destruct (mutating_reply op (server w) Hmut) as [lg Hlg].
    eapply (apiCall_no_fallback (network := cluster) w endpoint method body
              (mkResponse 200 (Some (Boundary.encode_reply (Core.step roster op (server w)).2)))).
    + unfold serve, Boundary.cluster_serve. rewrite Hroute.
      by destruct (Core.step roster op (server w)).
    + done.
    + done.
    + rewrite Hlg. reflexivity.
    + done.
Qed.

End EndToEnd.

(** * The claims at work on examples *)

Section Examples.
Import Js Client.

Lemma mutating_reply_suffices_witness :
  Core.mutating (Core.CastVote "v1" "Alice") = true ∧
  Boundary.route (api_request "/api/vote" "POST"
                    (JObj [("voterId", JStr "v1"); ("candidateName", JStr "Alice")]))
    = Some (Core.CastVote "v1" "Alice") ∧
  sent (apiCall (browser := example_browser) (network := Boundary.cluster_serve ["n1"; "n2"; "n3"])
          "/api/vote" "POST"
          (JObj [("voterId", JStr "v1"); ("candidateName", JStr "Alice")])
          (fresh_world Core.nobody_voted)).2
    = [vote_request "v1" "Alice"].
Proof.
  split; [reflexivity|]. split; [reflexivity|].
  apply (mutating_reply_suffices (browser := example_browser) ["n1"; "n2"; "n3"]
           (Core.CastVote "v1" "Alice") Core.nobody_voted
           (fresh_world Core.nobody_voted) "/api/vote" "POST"
           (JObj [("voterId", JStr "v1"); ("candidateName", JStr "Alice")])).
  - reflexivity.
  - reflexivity.
Defined.

Lemma five_endpoints_witness :
  Boundary.askable (Core.CastVote "v1" "Alice") = true ∧
  Boundary.Invokes (vote_request "v1" "Alice") (Core.CastVote "v1" "Alice") ∧
  Boundary.route (vote_request "v1" "Alice") = Some (Core.CastVote "v1" "Alice") ∧
  ∃ r, r ∈ sent (run (browser := example_browser) (fresh_world [])
                     (Boundary.ask (Core.CastVote "v1" "Alice"))) ∧
       Boundary.Invokes r (Core.CastVote "v1" "Alice").
Proof.
  assert (Hinv : Boundary.Invokes (vote_request "v1" "Alice") (Core.CastVote "v1" "Alice"))
    by exact (Boundary.invokes_castVote _ _ _).
  destruct (five_endpoints (browser := example_browser) (fresh_world []) [] [])
    as (_ & Hroute & Hask).
  split; [reflexivity|]. split; [exact Hinv|].
  split; [exact (Hroute _ _ Hinv)|].
  apply Hask. reflexivity.
Defined.

Lemma failed_request_logs_one_error_witness :
  serve (server server_error) (fail_node_request "n1")
    = (Resolved (mkResponse 500 None), []) ∧
  failure (Resolved (mkResponse 500 None)) = Some "HTTP error! status: 500" ∧
  logPanel (page (failNode (browser := example_browser) "n1" server_error).2) =
    [firing_line "/api/fail-node"; log_line "API Error: HTTP error! status: 500"] ∧
  candidateList (page (failNode (browser := example_browser) "n1" server_error).2) = [] ∧
  statusContainer (page (failNode (browser := example_browser) "n1" server_error).2) = [].
Proof.
  assert (Hfail : failure (Resolved (mkResponse 500 None)) = Some "HTTP error! status: 500")
    by (vm_compute; reflexivity).
  split; [reflexivity|]. split; [exact Hfail|].
  destruct (failed_request_logs_one_error (browser := example_browser) server_error
              "/api/fail-node" "POST" (JObj [("node_id", JStr "n1")])
              (Resolved (mkResponse 500 None)) [] "HTTP error! status: 500")
    as (_ & Hlog & Hcands & Hstatus & _).
  - reflexivity.
  - exact Hfail.
  - split; [exact Hlog|]. split; [exact Hcands | exact Hstatus].
Defined.

Lemma requests_need_input_witness :
  (voterIdInput (page no_voter_id) = "" ∧
   sent (castVote (browser := example_browser) "Alice" no_voter_id).2 = [] ∧
   addCandidate (browser := example_browser) no_voter_id = (Returned (), no_voter_id)) ∧
  (voterIdInput (page voter_and_name) ≠ "" ∧
   candidateNameInput (page voter_and_name) ≠ "" ∧
   (∃ more, issued voter_and_name (castVote (browser := example_browser) "Alice" voter_and_name).2
              = vote_request "v1" "Alice" :: more ∧ fallback_or_none more) ∧
   candidateNameInput (page (addCandidate (browser := example_browser) voter_and_name).2) = "").
Proof.
  destruct (requests_need_input (browser := example_browser) no_voter_id "Alice")
    as (_ & Hempty & _ & _ & Hnone & _).
  destruct (requests_need_input (browser := example_browser) voter_and_name "Alice")
    as (_ & _ & Hvote & _ & _ & Hadd).
  split.
  - split; [reflexivity|]. split.
    + rewrite Hempty; reflexivity.
    + apply Hnone. reflexivity.
  - assert (Hv : voterIdInput (page voter_and_name) ≠ "") by discriminate.
    assert (Hn : candidateNameInput (page voter_and_name) ≠ "") by discriminate.
    split; [exact Hv|]. split; [exact Hn|]. split.
    + exact (Hvote Hv).
    + exact (proj1 (Hadd Hn)).
Defined.

(** C8: a failed request that does change what the page shows.  The
    read of a timer is answered with the bare state, so [apiCall] reads
    the state again, and this second request is answered with status
    500 and a JSON body.  The script checks [response.ok] on the first
    answer only: the body of the failed one goes to [updateUI], which
    clears the candidate list and the status panel before it fails on
    the missing nodes, and the error line follows. *)
Theorem fallback_status_is_not_read :
  let w' := (run_callback (browser := example_browser) SyncState fallback_fails).2 in
  sent w' = [poll_request; get_state_request] ∧
  failure (Resolved (mkResponse 500 (Some (JObj [("error", JStr "boom")]))))
    = Some "HTTP error! status: 500" ∧
  candidateList (page fallback_fails) = [vote_button "Alice"] ∧
  candidateList (page w') = [no_candidates] ∧
  statusContainer (page fallback_fails)
    = [mkStatusDiv "n1" "text-green-500" "UP" "👑 LEADER" "Alice: 0"] ∧
  statusContainer (page w') = [] ∧
  logPanel (page w') =
    [firing_line "/api/get-state";
     log_line "API Error: Object.entries(state.nodes) is not valid here"].
Proof. vm_compute. by repeat split. Qed.

End Examples.

(** * What every run of the script keeps *)

Section Frames.
Import Js Client Views.
Context {browser : Browser} {S : Type} {network : Network S}.

Section Preorder.
Context (R : World S → World S → Prop) `{!Reflexive R, !Transitive R}.

Lemma respects_ret {A} (a : A) : respects R (ret a : M S A).
Proof. intros w. simpl. reflexivity. Qed.

Lemma respects_throw {A} e : respects R (throw e : M S A).
Proof. intros w. simpl. reflexivity. Qed.

Lemma respects_lift_js {A} site (o : option A) : respects R (lift_js site o : M S A).
Proof. destruct o; [apply respects_ret | apply respects_throw]. Qed.

Lemma respects_response_json r : respects R (response_json r : M S JValue).
Proof. unfold response_json. destruct (json r); [apply respects_ret | apply respects_throw]. Qed.

Lemma respects_get_page : respects R (get_page : M S Page).
Proof. intros w. simpl. reflexivity. Qed.

Lemma respects_bind {A B} (m : M S A) (f : A → M S B) :
  respects R m → (∀ a, respects R (f a)) → respects R (bind m f).
Proof.
  intros Hm Hf w. unfold bind. specialize (Hm w).
  destruct (m w) as [[a|e] w1]; simpl in *; [|done].
  etrans; [exact Hm | apply Hf].
Qed.

Lemma respects_try_catch {A} (block : M S A) handler :
  respects R block → (∀ e, respects R (handler e)) → respects R (try_catch block handler).
Proof.
  intros Hb Hh w. unfold try_catch. specialize (Hb w).
  destruct (block w) as [[a|e] w1]; simpl in *; [done|].
  etrans; [exact Hb | apply Hh].
Qed.

Lemma respects_forEach {A} (f : A → M S unit) (l : list A) :
  (∀ a, respects R (f a)) → respects R (forEach f l).
Proof.
  intros Hf. induction l as [|x l IH]; simpl.
  - apply respects_ret.
  - apply respects_bind; [apply Hf | by intros _].
Qed.

Lemma respects_mapM {A B} (f : A → M S B) (l : list A) :
  (∀ a, respects R (f a)) → respects R (mapM f l).
Proof.
  intros Hf. induction l as [|x l IH]; simpl.
  - apply respects_ret.
  - apply respects_bind; [apply Hf | intros y].
    apply respects_bind; [exact IH | intros ys]. apply respects_ret.
Qed.

End Preorder.

Lemma respects_weaken {A} (R1 R2 : World S → World S → Prop) (m : M S A) :
  (∀ w w', R1 w w' → R2 w w') → respects R1 m → respects R2 m.
Proof. intros Himp Hm w. apply Himp, Hm. Qed.

#[local] Instance same_but_page_preorder : PreOrder (same_but_page (S := S)).
Proof.
  split.
  - intros w. by repeat split.
  - intros a b c (?&?&?&?) (?&?&?&?). repeat split; congruence.
Qed.

#[local] Instance keeps_inputs_preorder : PreOrder (keeps_inputs (S := S)).
Proof.
  split.
  - intros w. by split.
  - intros a b c [??] [??]. split; congruence.
Qed.

#[local] Instance keeps_panels_preorder : PreOrder (keeps_panels (S := S)).
Proof.
  split.
  - intros w. by split.
  - intros a b c [??] [??]. split; congruence.
Qed.

#[local] Instance keeps_log_preorder : PreOrder (keeps_log (S := S)).
Proof.
  split.
  - intros w. by split.
  - intros a b c [??] [??]. split; congruence.
Qed.

#[local] Instance extends_log_preorder : PreOrder (extends_log (S := S)).
Proof.
  split.
  - intros w. exists []. by rewrite app_nil_r.
  - intros a b c [m1 H1] [m2 H2]. exists (m1 ++ m2). by rewrite H2, H1, app_assoc.
Qed.

#[local] Instance log_only_preorder : PreOrder (log_only (S := S)).
Proof.
  split.
  - intros w. split; [|split; [|split]]; reflexivity.
  - intros a b c (?&?&?&?) (?&?&?&?). split; [|split; [|split]]; etrans; eauto.
Qed.

#[local] Instance panels_only_preorder : PreOrder (panels_only (S := S)).
Proof.
  split.
  - intros w. split; [|split]; reflexivity.
  - intros a b c (?&?&?) (?&?&?). split; [|split]; etrans; eauto.
Qed.

#[local] Instance log_and_inputs_preorder : PreOrder (log_and_inputs (S := S)).
Proof.
  split.
  - intros w. split; reflexivity.
  - intros a b c [??] [??]. split; etrans; eauto.
Qed.

Lemma log_only_add_line x :
  respects log_only (modify_page (λ p, set_logPanel (logPanel p ++ [x]) p) : M S unit).
Proof. intros w. repeat split. by exists [x]. Qed.

Lemma log_only_scroll (h : list Element → Z) :
  respects log_only (modify_page (λ p, set_logScrollTop (h (logPanel p)) p) : M S unit).
Proof. intros w. repeat split. exists []. simpl. by rewrite app_nil_r. Qed.

Lemma log_only_append_line line : respects log_only (append_line line : M S unit).
Proof.
  unfold append_line.
  repeat first
    [ apply respects_bind; try apply _; [|intros ?]
    | apply respects_lift_js; apply _
    | apply respects_ret; apply _
    | apply log_only_add_line
    | match goal with |- respects _ (if ?b then _ else _) => destruct b end ].
Qed.

Lemma log_only_appendLog logArray : respects log_only (appendLog logArray : M S unit).
Proof.
  unfold appendLog. destruct (negb (truthy logArray)); [apply respects_ret; apply _|].
  destruct logArray; try (apply respects_throw; apply _).
  apply respects_bind; try apply _.
  - apply respects_forEach; try apply _. apply log_only_append_line.
  - intros _. apply log_only_scroll.
Qed.

Lemma panels_only_candidates (f : Page → list Element) :
  respects panels_only (modify_page (λ p, set_candidateList (f p) p) : M S unit).
Proof. intros w. by repeat split. Qed.

Lemma panels_only_status (f : Page → list StatusDiv) :
  respects panels_only (modify_page (λ p, set_statusContainer (f p) p) : M S unit).
Proof. intros w. by repeat split. Qed.

Lemma panels_only_updateUI state : respects panels_only (updateUI state : M S unit).
Proof.
  unfold updateUI.
  repeat first
    [ apply respects_bind; try apply _; [|intros ?]
    | apply respects_forEach; try apply _; intros ?
    | apply respects_mapM; try apply _; intros ?
    | apply respects_lift_js; apply _
    | apply respects_ret; apply _
    | apply (panels_only_candidates (λ _, []))
    | apply (panels_only_candidates (λ _, [no_candidates]))
    | apply (panels_only_status (λ _, []))
    | apply (panels_only_candidates (λ p, candidateList p ++ [_]))
    | apply (panels_only_status (λ p, statusContainer p ++ [_]))
    | match goal with
      | |- respects _ (if ?b then _ else _) => destruct b
      | |- respects _ (match ?x with _ => _ end) => destruct x
      end ].
Qed.


(** ** [appendLog] *)



(** X1: given an array of strings, [appendLog] returns normally and puts
    one paragraph per string at the end of the log, in the order of the
    array and after the lines already there, each with the text
    ["> "] and the string and the class its words call for; the scroll
    position becomes the height of the log so extended, and the rest of
    the world stays as it was. *)
Theorem appendLog_shows_lines (lines : list string) (w : World S) :
  (appendLog (JArr (JStr <$> lines)) w).1 = Returned () ∧
  logPanel (page (appendLog (JArr (JStr <$> lines)) w).2)
    = logPanel (page w) ++ (log_line <$> lines) ∧
  logScrollTop (page (appendLog (JArr (JStr <$> lines)) w).2)
    = scrollHeight (logPanel (page w) ++ (log_line <$> lines)) ∧
  keeps_panels w (appendLog (JArr (JStr <$> lines)) w).2 ∧
  keeps_inputs w (appendLog (JArr (JStr <$> lines)) w).2 ∧
  same_but_page w (appendLog (JArr (JStr <$> lines)) w).2.
Proof. rewrite appendLog_strings. by repeat split. Qed.

(** X2: showing a log in two batches gives the page that showing it in
    one gives: the lines of the first array, then those of the second. *)
Theorem appendLog_batches (l1 l2 : list string) (w : World S) :
  appendLog (JArr (JStr <$> l2)) (appendLog (JArr (JStr <$> l1)) w).2
  = appendLog (JArr (JStr <$> (l1 ++ l2))) w.
Proof.
  rewrite !appendLog_strings. unfold logged, with_page. simpl.
  by rewrite fmap_app, app_assoc.
Qed.


(** X4: whatever it is given, [appendLog] changes nothing but the log
    and its scroll position, and the log keeps every line it had: the
    candidate list, the status panel and the input fields are as before
    and nothing is sent. *)
Theorem appendLog_only_appends (logArray : JValue) (w : World S) :
  log_only w (appendLog logArray w).2.
Proof. apply log_only_appendLog. Qed.

(** ** [updateUI] *)

Lemma steady_ret {A} (a : A) : steady (ret a : M S A).
Proof. by exists (Returned a). Qed.

Lemma steady_throw {A} e : steady (throw e : M S A).
Proof. by exists (Thrown e). Qed.

Lemma steady_lift_js {A} site (o : option A) : steady (lift_js site o : M S A).
Proof. destruct o; [apply steady_ret | apply steady_throw]. Qed.

Lemma steady_bind {A B} (m : M S A) (f : A → M S B) :
  steady m → (∀ a, steady (f a)) → steady (bind m f).
Proof.
  intros [[a|e] Hm] Hf.
  - destruct (Hf a) as [o Ho]. exists o. intros w. unfold bind. by rewrite Hm.
  - exists (Thrown e). intros w. unfold bind. by rewrite Hm.
Qed.

Lemma steady_mapM {A B} (f : A → M S B) (l : list A) :
  (∀ a, steady (f a)) → steady (mapM f l).
Proof.
  intros Hf. induction l as [|x l IH]; simpl.
  - apply steady_ret.
  - apply steady_bind; [apply Hf | intros y].
    apply steady_bind; [exact IH | intros ys]. apply steady_ret.
Qed.

Lemma with_page_status_nil (w : World S) :
  with_page (set_statusContainer (statusContainer (page w) ++ []) (page w)) w = w.
Proof. rewrite app_nil_r. by destruct w as [[] ????]. Qed.

Lemma adds_status_steady {A} (m : M S A) : steady m → adds_status m.
Proof.
  intros [o Ho]. exists o, []. intros w. by rewrite with_page_status_nil.
Qed.

Lemma adds_status_bind {A B} (m : M S A) (f : A → M S B) :
  adds_status m → (∀ a, adds_status (f a)) → adds_status (bind m f).
Proof.
  intros ([a|e] & m1 & Hm) Hf.
  - destruct (Hf a) as (o & m2 & Ho). exists o, (m1 ++ m2). intros w.
    unfold bind. rewrite Hm, Ho. unfold with_page. simpl. by rewrite app_assoc.
  - exists (Thrown e), m1. intros w. unfold bind. by rewrite Hm.
Qed.

Lemma adds_status_forEach {A} (f : A → M S unit) (l : list A) :
  (∀ a, adds_status (f a)) → adds_status (forEach f l).
Proof.
  intros Hf. induction l as [|x l IH]; simpl.
  - apply adds_status_steady, steady_ret.
  - apply adds_status_bind; [apply Hf | by intros _].
Qed.

Lemma adds_status_add_status entry : adds_status (add_status entry : M S unit).
Proof.
  destruct entry as [nodeId nodeInfo]. unfold add_status.
  apply adds_status_bind; [apply adds_status_steady, steady_lift_js | intros st].
  apply adds_status_bind; [apply adds_status_steady, steady_lift_js | intros il].
  apply adds_status_bind; [apply adds_status_steady, steady_lift_js | intros vs].
  apply adds_status_bind; [apply adds_status_steady, steady_lift_js | intros ves].
  apply adds_status_bind.
  { apply adds_status_steady, steady_mapM. intros [c v].
    apply steady_bind; [apply steady_lift_js | intros sv; apply steady_ret]. }
  intros parts.
  apply adds_status_bind; [apply adds_status_steady, steady_lift_js | intros text].
  by eexists (Returned ()), [_].
Qed.

Lemma forEach_buttons (names : list string) (w : World S) :
  forEach add_button names w =
  (Returned (),
   with_page (set_candidateList (candidateList (page w) ++ (vote_button <$> names))
                                (page w)) w).
Proof.
  revert w. induction names as [|name names IH]; intros w; simpl.
  - rewrite app_nil_r. by destruct w as [[] ????].
  - unfold bind. unfold add_button at 1. simpl. rewrite IH.
    unfold with_page. simpl. by rewrite <- app_assoc.
Qed.

Lemma truthy_get k v : truthy v = true → ∃ x, get k v = Some x.
Proof. destruct v; simpl; try done; eauto. Qed.

Lemma updateUI_unfold (state : JValue) :
  (updateUI state : M S unit) =
  if negb (truthy state) then ret () else
  (modify_page (set_candidateList []) ;;
   cands ← lift_js "state.candidates" (get "candidates" state);
   (if (0 <? length (keys (if truthy cands then cands else JObj [])))%nat then
      forEach add_button (keys cands)
    else modify_page (set_candidateList [no_candidates])) ;;
   modify_page (set_statusContainer []) ;;
   nodes ← lift_js "state.nodes" (get "nodes" state);
   node_entries ← lift_js "Object.entries(state.nodes)" (entries nodes);
   forEach add_status node_entries)%js.
Proof. reflexivity. Qed.

(** The state decides what [updateUI] leaves in the two panels and how
    it ends. *)
Lemma updateUI_renders (state : JValue) :
  truthy state = true →
  ∃ o sc, ∀ w : World S,
    updateUI state w =
    (o, with_page (set_statusContainer sc
                     (set_candidateList (candidate_buttons state) (page w))) w).
Proof.
  intros Ht.
  destruct (truthy_get "candidates" state Ht) as [cands Hc].
  destruct (truthy_get "nodes" state Ht) as [nodes Hn].
  assert (Hloop : ∃ o sc, ∀ w : World S,
             bind (lift_js "Object.entries(state.nodes)" (entries nodes))
                  (λ node_entries, forEach add_status node_entries) w =
             (o, with_page (set_statusContainer (statusContainer (page w) ++ sc) (page w)) w)).
  { apply adds_status_bind; [apply adds_status_steady, steady_lift_js|].
    intros es. apply adds_status_forEach, adds_status_add_status. }
  destruct Hloop as (o & sc & Hloop).
  exists o, sc. intros w. rewrite updateUI_unfold, Ht. simpl.
  unfold bind at 1. simpl. unfold bind at 1. rewrite Hc. simpl.
  unfold candidate_buttons. rewrite Hc.
  unfold bind at 1.
  destruct (0 <? length (keys (if truthy cands then cands else JObj [])))%nat.
  - rewrite forEach_buttons. simpl.
    unfold bind at 1. simpl. unfold bind at 1. rewrite Hn. simpl.
    rewrite Hloop. reflexivity.
  - simpl. unfold bind at 1. simpl. unfold bind at 1. rewrite Hn. simpl.
    rewrite Hloop. reflexivity.
Qed.


Lemma with_page_twice (p p' : Page) (w : World S) :
  with_page p (with_page p' w) = with_page p w.
Proof. done. Qed.


(** X6: rendering the same state a second time changes nothing: the
    second [updateUI] ends as the first did and leaves the world the
    first left. *)
Theorem updateUI_idempotent (state : JValue) (w : World S) :
  updateUI state (updateUI state w).2 = updateUI state w.
Proof.
  destruct (truthy state) eqn:Ht.
  - destruct (updateUI_renders state Ht) as (o & sc & Hr).
    by rewrite !Hr.
  - rewrite updateUI_unfold, Ht. reflexivity.
Qed.

(** X7: whatever it is given, and also when it throws, [updateUI]
    changes the candidate list and the status panel only: the log, its
    scroll position and the input fields are as before, and nothing is
    sent. *)
Theorem updateUI_keeps_log_and_inputs (state : JValue) (w : World S) :
  panels_only w (updateUI state w).2.
Proof. apply panels_only_updateUI. Qed.

Lemma keys_or_empty (cands : JValue) :
  keys (if truthy cands then cands else JObj []) = keys cands.
Proof.
  destruct cands as [| |[]|n|s| |]; simpl; try done.
  - by destruct (num_truthy n).
  - by destruct s.
Qed.

Lemma candidate_buttons_keys state cands :
  get "candidates" state = Some cands →
  candidate_buttons state =
    match keys cands with
    | [] => [no_candidates]
    | name :: names => vote_button <$> name :: names
    end.
Proof.
  intros Hc. unfold candidate_buttons. rewrite Hc, keys_or_empty.
  by destruct (keys cands).
Qed.

Lemma updateUI_candidate_list (state cands : JValue) (w : World S) :
  truthy state = true →
  get "candidates" state = Some cands →
  candidateList (page (updateUI state w).2) =
    match keys cands with
    | [] => [no_candidates]
    | name :: names => vote_button <$> name :: names
    end.
Proof.
  intros Ht Hc. destruct (updateUI_renders state Ht) as (o & sc & Hr).
  rewrite Hr. simpl. by apply candidate_buttons_keys.
Qed.


(** X9: every button that [updateUI] puts into the candidate list votes
    for the candidate it names: its text is "Vote for" and a key of
    [state.candidates], and its handler, run with a voter id typed in,
    sends first of all the vote of that voter for that very key. *)
Theorem vote_button_votes_for_its_candidate
    (state cands : JValue) (w : World S) (b : Element) (h : Handler) :
  truthy state = true →
  get "candidates" state = Some cands →
  b ∈ candidateList (page (updateUI state w).2) →
  onclick b = Some h →
  ∃ name, name ∈ keys cands ∧
          textContent b = "Vote for " +:+ name ∧
          ∀ w' : World S, voterIdInput (page w') ≠ "" →
            ∃ more, issued w' (run_handler h w').2
                      = vote_request (voterIdInput (page w')) name :: more ∧
                    fallback_or_none more.
Proof.
  intros Ht Hc Hb Hh.
  rewrite (updateUI_candidate_list state cands w Ht Hc) in Hb.
  destruct (keys cands) as [|k ks] eqn:Hk.
  - apply list_elem_of_singleton in Hb as ->. done.
  - apply list_elem_of_fmap in Hb as (name & -> & Hin).
    injection Hh as <-. exists name. split; [done|]. split; [done|].
    intros w' Hv. simpl. rewrite castVote_filled by done.
    destruct (apiCall_emits "/api/vote" "POST"
                (JObj [("voterId", JStr (voterIdInput (page w')));
                       ("candidateName", JStr name)]) w')
      as (l & Hs & (more & -> & Hmore) & _).
    exists more. split; [|done]. by apply issued_app.
Qed.

Lemma bind_yields {A B} (m : M S A) (f : A → M S B) (a : A) (w : World S) :
  (∀ w', m w' = (Returned a, w')) → bind m f w = f a w.
Proof. intros Hm. unfold bind. by rewrite Hm. Qed.

Lemma mapM_values {A B} (f : A → M S B) (l : list A) (ys : list B) (w : World S) :
  Forall2 (λ x y, ∀ w', f x w' = (Returned y, w')) l ys →
  mapM f l w = (Returned ys, w).
Proof.
  intros Hall. revert w. induction Hall as [|x y l ys Hx _ IH]; intros w; simpl; [done|].
  rewrite (bind_yields _ _ y) by done.
  by rewrite (bind_yields _ _ ys) by (intros w'; apply IH).
Qed.

Lemma forEach_cons {A} (f : A → M S unit) (x : A) (l : list A) (w : World S) :
  forEach f (x :: l) w =
  match f x w with
  | (Returned _, w1) => forEach f l w1
  | (Thrown e, w1) => (Thrown e, w1)
  end.
Proof. simpl. unfold bind. by destruct (f x w) as [[[]|e] w1]. Qed.

Lemma mapM_votes (vs : list (string * Num)) (w : World S) :
  mapM (λ '(c, v),
          sv ← lift_js "`${c}: ${v}`" (to_string v);
          ret (c +:+ ": " +:+ sv))%js
       ((λ cv : string * Num, (cv.1, JNum cv.2)) <$> vs) w
  = (Returned ((λ cv : string * Num, cv.1 +:+ ": " +:+ num_text cv.2) <$> vs), w).
Proof.
  apply mapM_values, Forall2_fmap, Forall_Forall2_diag, Forall_forall.
  by intros [c z] _ w'.
Qed.

Lemma add_status_node (id : string) (n : NodeInfo) (w : World S) :
  add_status (id, node_json n) w =
  (Returned (),
   with_page (set_statusContainer (statusContainer (page w) ++ [status_entry (id, n)])
                                  (page w)) w).
Proof.
  unfold add_status. cbv beta iota.
  rewrite (bind_yields _ _ (JStr (ni_status n))) by done. cbv beta zeta.
  rewrite (bind_yields _ _ (JBool (ni_is_leader n))) by done. cbv beta zeta.
  rewrite (bind_yields _ _
             (JObj ((λ cv : string * Num, (cv.1, JNum cv.2)) <$> ni_votes n))) by done.
  rewrite (bind_yields _ _ ((λ cv : string * Num, (cv.1, JNum cv.2)) <$> ni_votes n))
    by done.
  rewrite (bind_yields _ _
             ((λ cv : string * Num, cv.1 +:+ ": " +:+ num_text cv.2) <$> ni_votes n))
    by (intros w'; apply mapM_votes).
  cbv beta zeta.
  by rewrite (bind_yields _ _ (ni_status n)) by done.
Qed.

Lemma forEach_nodes (ns : list (string * NodeInfo)) (w : World S) :
  forEach add_status ((λ e : string * NodeInfo, (e.1, node_json e.2)) <$> ns) w =
  (Returned (),
   with_page (set_statusContainer (statusContainer (page w) ++ (status_entry <$> ns))
                                  (page w)) w).
Proof.
  revert w. induction ns as [|[id n] ns IH]; intros w.
  - simpl. rewrite app_nil_r. by destruct w as [[] ????].
  - rewrite fmap_cons, forEach_cons. cbn [fst snd].
    rewrite add_status_node, IH. unfold with_page. simpl. by rewrite <- app_assoc.
Qed.

Lemma keys_candidates (cands : list string) :
  keys (JObj ((λ name, (name, JBool true)) <$> cands)) = cands.
Proof.
  unfold keys. simpl. rewrite <- list_fmap_compose.
  induction cands as [|c cands IH]; simpl; [done|]. by f_equal.
Qed.

Lemma updateUI_state_json
    (cands : list string) (ns : list (string * NodeInfo)) (w : World S) :
  updateUI (state_json cands ns) w =
  (Returned (),
   with_page (set_statusContainer (status_entry <$> ns)
                (set_candidateList
                   match cands with
                   | [] => [no_candidates]
                   | _ => vote_button <$> cands
                   end (page w))) w).
Proof.
  rewrite updateUI_unfold. simpl.
  unfold bind at 1. simpl. unfold bind at 1. simpl.
  change (lookup_prop "candidates" _)
    with (JObj ((λ name, (name, JBool true)) <$> cands)).
  simpl. rewrite keys_candidates.
  unfold bind at 1. destruct cands as [|c cands].
  - simpl. unfold bind at 1. simpl. unfold bind at 1. simpl.
    unfold bind at 1. simpl. by rewrite forEach_nodes.
  - change (0 <? length (c :: cands))%nat with true. cbv iota.
    rewrite forEach_buttons. simpl.
    unfold bind at 1. simpl. unfold bind at 1. simpl.
    unfold bind at 1. simpl. by rewrite forEach_nodes.
Qed.

(** X10: for a state whose nodes each have a status string, a leader
    flag and, for each candidate, a number of votes (any number: whole
    or not, of any size), [updateUI] returns normally and the status
    panel holds one entry per node, in the order of [state.nodes]: the
    id, the status in green exactly when it is "UP" (in red otherwise),
    the leader mark exactly for a leader, and the votes as "name: " and
    the number as the engine prints it, joined by commas; the candidate
    list holds one button per candidate. *)
Theorem updateUI_shows_nodes
    (cands : list string) (ns : list (string * NodeInfo)) (w : World S) :
  updateUI (state_json cands ns) w =
  (Returned (),
   with_page (set_statusContainer (status_entry <$> ns)
                (set_candidateList
                   match cands with
                   | [] => [no_candidates]
                   | _ => vote_button <$> cands
                   end (page w))) w).
Proof. apply updateUI_state_json. Qed.


End Frames.

(** * What a call of the API and an event of the page do *)

Section Calls.
Import Js Client Views.
Context {browser : Browser} {S : Type} {network : Network S}.

Ltac conjuncts := repeat match goal with |- _ ∧ _ => split end.

#[local] Instance log_and_inputs_pre : PreOrder (log_and_inputs (S := S)).
Proof.
  split.
  - intros w. split; [by split | exists []; by rewrite app_nil_r].
  - intros a b c [[??] [m1 Hm1]] [[??] [m2 Hm2]]. split; [split; congruence|].
    exists (m1 ++ m2). by rewrite Hm2, Hm1, app_assoc.
Qed.

Lemma log_and_inputs_appendLog logArray :
  respects log_and_inputs (appendLog logArray : M S unit).
Proof.
  eapply respects_weaken; [|apply log_only_appendLog].
  by intros w w' (_ & ? & _ & ?).
Qed.

Lemma log_and_inputs_updateUI state :
  respects log_and_inputs (updateUI state : M S unit).
Proof.
  eapply respects_weaken; [|apply panels_only_updateUI].
  intros w w' (_ & ? & Hlog & _). split; [done|].
  exists []. by rewrite app_nil_r.
Qed.

Lemma log_and_inputs_fetch req : respects log_and_inputs (fetch req : M S Response).
Proof.
  intros w. unfold fetch. destruct (serve (server w) req) as [[reason|r] s']; simpl.
  - split; [by split | exists []; by rewrite app_nil_r].
  - split; [by split | exists []; by rewrite app_nil_r].
Qed.

Lemma apiCall_facts endpoint method body (w : World S) :
  (apiCall endpoint method body w).1 = Returned () ∧
  keeps_inputs w (apiCall endpoint method body w).2 ∧
  (∃ more, logPanel (page (apiCall endpoint method body w).2)
             = logPanel (page w) ++ firing_line endpoint :: more) ∧
  alerts (apiCall endpoint method body w).2 = alerts w ∧
  intervals (apiCall endpoint method body w).2 = intervals w.
Proof.
  split; [apply apiCall_returns|].
  destruct (apiCall_emits endpoint method body w) as (l & _ & _ & Ha & Hi).
  assert (Hpage : keeps_inputs w (apiCall endpoint method body w).2 ∧
                  ∃ more, logPanel (page (apiCall endpoint method body w).2)
                            = logPanel (page w) ++ firing_line endpoint :: more).
  { clear Ha Hi.
    set (P := λ w' : World S,
           keeps_inputs w w' ∧
           ∃ more, logPanel (page w') = logPanel (page w) ++ firing_line endpoint :: more).
    change (P (apiCall endpoint method body w).2).
    unfold apiCall. unfold bind at 1. simpl.
    set (w1 := with_page _ w).
    match goal with
    | |- context [try_catch ?blk ?h w1] =>
        assert (Hr : respects log_and_inputs (try_catch blk h))
    end.
    { apply respects_try_catch; try apply _.
      - apply respects_bind; try apply _; [apply log_and_inputs_fetch | intros r].
        destruct (negb (ok r)); [apply respects_throw; apply _|].
        apply respects_bind; try apply _; [apply respects_response_json; apply _|].
        intros data.
        apply respects_bind; try apply _; [apply respects_lift_js; apply _|].
        intros log.
        apply respects_bind; try apply _; [apply log_and_inputs_appendLog|].
        intros _.
        apply respects_bind; try apply _; [apply respects_lift_js; apply _|].
        intros state.
        apply respects_bind; try apply _; [|intros arg; apply log_and_inputs_updateUI].
        destruct (truthy state); [apply respects_ret; apply _|].
        apply respects_bind; try apply _; [apply log_and_inputs_fetch|].
        intros again. apply respects_response_json; apply _.
      - intros e. apply log_and_inputs_appendLog. }
    destruct (Hr w1) as [[Hn Hv] [more Hmore]]. unfold P.
    split; [split; [exact Hn | exact Hv]|].
    exists more. etrans; [exact Hmore|]. unfold w1. simpl. by rewrite <- app_assoc. }
  destruct Hpage as [? ?]. split; [done|]. split; [done|]. by split.
Qed.

(** X12: a call of [apiCall] never takes a line out of the log and
    never touches the input fields: after it the log holds what it
    held, then the line that announces the request, then whatever the
    answer brought. *)
Theorem apiCall_extends_log endpoint method body (w : World S) :
  (∃ more, logPanel (page (apiCall endpoint method body w).2)
             = logPanel (page w) ++ firing_line endpoint :: more) ∧
  keeps_inputs w (apiCall endpoint method body w).2.
Proof. destruct (apiCall_facts endpoint method body w) as (_ & ? & ? & _). by split. Qed.

Lemma initializeSystem_facts (w : World S) :
  (initializeSystem w).1 = Returned () ∧
  keeps_inputs w (initializeSystem w).2 ∧
  (∃ more, logPanel (page (initializeSystem w).2)
             = firing_line "/api/initialize" :: more) ∧
  alerts (initializeSystem w).2 = alerts w ∧
  intervals (initializeSystem w).2 = intervals w.
Proof.
  unfold initializeSystem. unfold bind. simpl.
  set (w1 := with_page _ w).
  destruct (apiCall_facts "/api/initialize" "POST" JNull w1)
    as (Hret & Hin & Hlog & Ha & Hi).
  destruct (apiCall _ _ _ w1) as [[[]|e] w2]; simpl in *; [|done].
  conjuncts; done.
Qed.

Lemma addCandidate_facts (w : World S) :
  (addCandidate w).1 = Returned () ∧
  voterIdInput (page (addCandidate w).2) = voterIdInput (page w) ∧
  candidateNameInput (page (addCandidate w).2) = "" ∧
  extends_log w (addCandidate w).2 ∧
  alerts (addCandidate w).2 = alerts w ∧
  intervals (addCandidate w).2 = intervals w.
Proof.
  destruct (decide (candidateNameInput (page w) = "")) as [He|Hne].
  - rewrite addCandidate_empty by done. simpl. conjuncts; try done.
    exists []. by rewrite app_nil_r.
  - rewrite addCandidate_filled by done. simpl.
    destruct (apiCall_facts "/api/add-candidate" "POST"
                (JObj [("name", JStr (candidateNameInput (page w)))]) w)
      as (_ & [_ Hv] & (more & Hlog) & Ha & Hi).
    conjuncts; try done. by eexists.
Qed.

Lemma castVote_facts name (w : World S) :
  (castVote name w).1 = Returned () ∧
  keeps_inputs w (castVote name w).2 ∧
  extends_log w (castVote name w).2 ∧
  alerts (castVote name w).2 =
    alerts w ++ (if String.eqb (voterIdInput (page w)) "" then [voter_id_alert] else []) ∧
  intervals (castVote name w).2 = intervals w.
Proof.
  destruct (decide (voterIdInput (page w) = "")) as [He|Hne].
  - rewrite castVote_empty by done. rewrite He. simpl. conjuncts; try done.
    exists []. by rewrite app_nil_r.
  - rewrite castVote_filled by done.
    destruct (apiCall_facts "/api/vote" "POST"
                (JObj [("voterId", JStr (voterIdInput (page w)));
                       ("candidateName", JStr name)]) w)
      as (Hret & Hin & (more & Hlog) & Ha & Hi).
    apply String.eqb_neq in Hne. rewrite Hne, app_nil_r.
    conjuncts; try done; try apply Hin. by eexists.
Qed.

Lemma onload_facts (w : World S) :
  (onload w).1 = Returned () ∧
  keeps_inputs w (onload w).2 ∧
  (∃ more, logPanel (page (onload w).2) = firing_line "/api/initialize" :: more) ∧
  alerts (onload w).2 = alerts w ∧
  intervals (onload w).2 = intervals w ++ [(SyncState, 15000%Z)].
Proof.
  unfold onload, bind.
  destruct (initializeSystem_facts w) as (Hret & Hin & Hlog & Ha & Hi).
  destruct (initializeSystem w) as [[[]|e] w1]; simpl in *; [|done].
  rewrite Hi. conjuncts; done.
Qed.

Lemma tick_facts (k : nat) (w : World S) :
  (handle (TimerFires k) w).1 = Returned () ∧
  keeps_inputs w (handle (TimerFires k) w).2 ∧
  extends_log w (handle (TimerFires k) w).2 ∧
  alerts (handle (TimerFires k) w).2 = alerts w ∧
  intervals (handle (TimerFires k) w).2 = intervals w.
Proof.
  simpl. destruct (intervals w !! k) as [[[] delay]|]; simpl.
  - destruct (apiCall_facts "/api/get-state" "GET" JNull w)
      as (Hret & Hin & (more & Hlog) & Ha & Hi).
    conjuncts; try done; try apply Hin. by eexists.
  - conjuncts; try done. exists []. by rewrite app_nil_r.
Qed.

(** X13: no event of the page ends in an uncaught error: loading, a
    timer, a click on a vote or failure button and the two controls
    all return normally, whatever the server answers, be it a rejection,
    an error status or a body that is not what the script expects. *)
Theorem no_uncaught_error (e : Event) (w : World S) :
  (handle e w).1 = Returned ().
Proof.
  destruct e as [|k|[name|node_id]| | |text|text].
  - apply onload_facts.
  - apply tick_facts.
  - apply castVote_facts.
  - apply apiCall_returns.
  - apply initializeSystem_facts.
  - apply addCandidate_facts.
  - done.
  - done.
Qed.

(** X14: the log is only ever added to, except by [initializeSystem]:
    after an event that runs it (the load of the page, the initialize
    control) the log starts afresh with the line announcing the
    initialize request, and after any other event it holds every line
    it held before. *)
Theorem log_is_append_only (e : Event) (w : World S) :
  ∃ more, logPanel (page (dispatch w e)) =
          (if restarts e then [firing_line "/api/initialize"] else logPanel (page w))
          ++ more.
Proof.
  unfold dispatch.
  destruct e as [|k|[name|node_id]| | |text|text]; simpl restarts; cbv iota.
  - destruct (onload_facts w) as (_ & _ & (more & Hlog) & _). by exists more.
  - apply tick_facts.
  - apply castVote_facts.
  - destruct (apiCall_facts "/api/fail-node" "POST"
                (JObj [("node_id", JStr node_id)]) w) as (_ & _ & (more & Hlog) & _).
    by eexists.
  - destruct (initializeSystem_facts w) as (_ & _ & (more & Hlog) & _). by exists more.
  - apply addCandidate_facts.
  - exists []. by rewrite app_nil_r.
  - exists []. by rewrite app_nil_r.
Qed.

(** X20: an input field changes only by its own typing, but for the
    name field, which [addCandidate] leaves empty: no answer of the
    server, no vote and no failure clears or rewrites the voter id. *)
Theorem inputs_change_only_by_typing (e : Event) (w : World S) :
  voterIdInput (page (dispatch w e)) =
    match e with
    | TypeVoterId text => text
    | _ => voterIdInput (page w)
    end ∧
  candidateNameInput (page (dispatch w e)) =
    match e with
    | TypeCandidateName text => text
    | CallAddCandidate => ""
    | _ => candidateNameInput (page w)
    end.
Proof.
  unfold dispatch.
  destruct e as [|k|[name|node_id]| | |text|text].
  - destruct (onload_facts w) as (_ & [? ?] & _). by split.
  - destruct (tick_facts k w) as (_ & [? ?] & _). by split.
  - destruct (castVote_facts name w) as (_ & [? ?] & _). by split.
  - destruct (apiCall_facts "/api/fail-node" "POST"
                (JObj [("node_id", JStr node_id)]) w) as (_ & [? ?] & _). by split.
  - destruct (initializeSystem_facts w) as (_ & [? ?] & _). by split.
  - destruct (addCandidate_facts w) as (_ & ? & ? & _). by split.
  - by split.
  - by split.
Qed.

(** X18: the one alert of the script is shown by a click on a vote
    button while the voter id field is empty, once per such click, and
    by nothing else. *)
Theorem alert_only_for_missing_voter (e : Event) (w : World S) :
  alerts (dispatch w e) =
    alerts w ++
    match e with
    | Click (CastVoteFor _) =>
        if String.eqb (voterIdInput (page w)) "" then [voter_id_alert] else []
    | _ => []
    end.
Proof.
  unfold dispatch.
  destruct e as [|k|[name|node_id]| | |text|text]; rewrite ?app_nil_r.
  - apply onload_facts.
  - apply tick_facts.
  - apply castVote_facts.
  - apply apiCall_facts.
  - apply initializeSystem_facts.
  - apply addCandidate_facts.
  - done.
  - done.
Qed.

Lemma dispatch_intervals (e : Event) (w : World S) :
  intervals (dispatch w e) =
    intervals w ++ (if is_load e then [(SyncState, 15000%Z)] else []).
Proof.
  unfold dispatch.
  destruct e as [|k|[name|node_id]| | |text|text]; simpl is_load; cbv iota;
    rewrite ?app_nil_r.
  - apply onload_facts.
  - apply tick_facts.
  - apply castVote_facts.
  - apply apiCall_facts.
  - apply initializeSystem_facts.
  - apply addCandidate_facts.
  - done.
  - done.
Qed.

(** X17: timers are set by the load of the page and by nothing else:
    after any sequence of events the page has the timers it had and,
    after them, one timer of 15000 milliseconds that reads the state
    for each load in the sequence. *)
Theorem timers_only_at_load (es : list Event) (w : World S) :
  intervals (run w es) = intervals w ++ replicate (loads es) (SyncState, 15000%Z).
Proof.
  revert w. induction es as [|e es IH]; intros w.
  - simpl. by rewrite app_nil_r.
  - change (run w (e :: es)) with (run (dispatch w e) es).
    rewrite IH, dispatch_intervals, <- app_assoc. f_equal.
    unfold loads. simpl. by destruct (is_load e).
Qed.


Lemma appendLog_plain log lines (w : World S) :
  plain_log log lines →
  appendLog log w = (Returned (), with_page (logged lines (page w)) w) ∨
  appendLog log w = (Returned (), w).
Proof.
  intros [[Hf ->] | ->].
  - right. unfold appendLog. by rewrite Hf.
  - left. apply appendLog_strings.
Qed.

Lemma apiCall_falls_back (w : World S) endpoint method body r s' data log lines state :
  serve (server w) (api_request endpoint method body) = (Resolved r, s') →
  ok r = true → json r = Some data →
  get "log" data = Some log → plain_log log lines →
  get "state" data = Some state → truthy state = false →
  sent (apiCall endpoint method body w).2
    = sent w ++ [api_request endpoint method body; get_state_request].
Proof.
  intros Hserve Hok Hjson Hlog Hplain Hstate Htruthy.
  set (P := λ w' : World S,
         sent w' = sent w ++ [api_request endpoint method body; get_state_request]).
  change (P (apiCall endpoint method body w).2).
  unfold apiCall. unfold bind at 1. simpl.
  unfold try_catch. unfold bind at 1. unfold fetch at 1. simpl.
  fold (api_request endpoint method body). rewrite Hserve, Hok. simpl.
  unfold response_json at 1. rewrite Hjson. unfold bind at 1. unfold ret at 1.
  rewrite Hlog. unfold lift_js at 1. unfold bind at 1. unfold ret at 1.
  set (w2 := mkWorld _ _ _ _ s').
  unfold bind at 1.
  assert (Hw3 : ∃ w3, appendLog log w2 = (Returned (), w3) ∧ sent w3 = sent w2).
  { destruct (appendLog_plain log lines w2 Hplain) as [-> | ->]; by eexists. }
  destruct Hw3 as (w3 & -> & Hs3).
  rewrite Hstate. unfold lift_js at 1. unfold bind at 1. unfold ret at 1.
  rewrite Htruthy.
  fold get_state_request.
  assert (Hrest : emits (λ l, l = [get_state_request])
                    (bind (bind (fetch get_state_request)
                                (λ again : Response, response_json again))
                          (λ arg : JValue, updateUI arg) : M S unit)).
  { apply emits_bind_r; [|intros arg; apply page_only_updateUI].
    apply emits_fetch_then. intros again. unfold response_json.
    destruct (json again); [apply page_only_ret | apply page_only_throw]. }
  destruct (Hrest w3) as (l & Hs4 & -> & _).
  destruct (bind _ _ w3) as [[[]|e] w4]; simpl in Hs4.
  - unfold P. simpl. rewrite Hs4, Hs3. simpl. by rewrite <- app_assoc.
  - destruct (page_only_appendLog (JArr [JStr ("API Error: " +:+ message e)]) w4)
      as (Hs5 & _).
    unfold P. rewrite Hs5, Hs4, Hs3. simpl. by rewrite <- app_assoc.
Qed.

(** X15: on an answer that is OK and whose log is absent or an array of
    strings, [apiCall] reads the state again exactly when the answer
    has no usable [state] (none, null, false, 0 or the empty string):
    it then sends one GET of /api/get-state after its own request, and
    otherwise its own request only. *)
Theorem fallback_exactly_when_state_missing
    (w : World S) (endpoint method : string) (body : JValue)
    (r : Response) (s' : S) (data log state : JValue) (lines : list string) :
  serve (server w) (api_request endpoint method body) = (Resolved r, s') →
  ok r = true → json r = Some data →
  get "log" data = Some log → plain_log log lines →
  get "state" data = Some state →
  issued w (apiCall endpoint method body w).2 =
    api_request endpoint method body ::
    (if truthy state then [] else [get_state_request]).
Proof.
  intros Hserve Hok Hjson Hlog Hplain Hstate. apply issued_app.
  destruct (truthy state) eqn:Ht.
  - by destruct (apiCall_no_fallback w endpoint method body r s' data state).
  - by eapply apiCall_falls_back.
Qed.

Lemma apiCall_unreadable (w : World S) endpoint method body r s' msg :
  serve (server w) (api_request endpoint method body) = (Resolved r, s') →
  ok r = true → unreadable r = Some msg →
  apiCall endpoint method body w =
    (Returned (),
     mkWorld (logged ["API Error: " +:+ msg]
                (set_logPanel (logPanel (page w) ++ [firing_line endpoint]) (page w)))
             (sent w ++ [api_request endpoint method body])
             (alerts w) (intervals w) s').
Proof.
  intros Hserve Hok Hbad. unfold apiCall. unfold bind at 1. simpl.
  unfold try_catch. unfold bind at 1. unfold fetch at 1. simpl.
  fold (api_request endpoint method body). rewrite Hserve, Hok. simpl.
  unfold unreadable in Hbad. unfold response_json at 1.
  destruct (json r) as [data|].
  - destruct (get "log" data) as [log|] eqn:Hlog; [done|]. injection Hbad as <-.
    unfold bind at 1. unfold ret at 1. rewrite Hlog. unfold lift_js at 1.
    unfold bind at 1. unfold throw at 1. simpl. by rewrite appendLog_one.
  - injection Hbad as <-. unfold bind at 1. unfold throw at 1. simpl.
    by rewrite appendLog_one.
Qed.

(** X16: an OK answer whose body is not JSON, or is JSON null, is
    treated as a failure: the log gains the firing line and one
    "API Error" line with the message of the engine, nothing is
    rendered (candidate list and status panel as before), and no second
    request is sent. *)
Theorem unreadable_body_is_an_error
    (w : World S) (endpoint method : string) (body : JValue)
    (r : Response) (s' : S) (msg : string) :
  serve (server w) (api_request endpoint method body) = (Resolved r, s') →
  ok r = true → unreadable r = Some msg →
  logPanel (page (apiCall endpoint method body w).2) =
    logPanel (page w) ++ [firing_line endpoint; log_line ("API Error: " +:+ msg)] ∧
  keeps_panels w (apiCall endpoint method body w).2 ∧
  sent (apiCall endpoint method body w).2 = sent w ++ [api_request endpoint method body].
Proof.
  intros Hserve Hok Hbad. rewrite (apiCall_unreadable _ _ _ _ _ _ _ Hserve Hok Hbad).
  simpl. rewrite <- app_assoc. by repeat split.
Qed.

Lemma appendLog_plain_lines log lines (w : World S) :
  plain_log log lines →
  ∃ w3, appendLog log w = (Returned (), w3) ∧
        keeps_panels w w3 ∧
        logPanel (page w3) = logPanel (page w) ++ (log_line <$> lines).
Proof.
  intros [[Hf ->] | ->].
  - exists w. unfold appendLog. rewrite Hf. simpl. by rewrite app_nil_r.
  - eexists. split; [apply appendLog_strings|]. by split.
Qed.

(** X22: on an answer that is OK and carries a log of strings and a
    state, [apiCall] shows that answer: the candidate list and the
    status panel are what [updateUI] makes of the state, and, when the
    state renders without an error, the log holds what it held, the
    firing line and then the lines of the answer, in order. *)
Theorem apiCall_shows_the_answer
    (w : World S) (endpoint method : string) (body : JValue)
    (r : Response) (s' : S) (data log state : JValue) (lines : list string) :
  serve (server w) (api_request endpoint method body) = (Resolved r, s') →
  ok r = true → json r = Some data →
  get "log" data = Some log → plain_log log lines →
  get "state" data = Some state → truthy state = true →
  candidateList (page (apiCall endpoint method body w).2)
    = candidateList (page (updateUI state w).2) ∧
  statusContainer (page (apiCall endpoint method body w).2)
    = statusContainer (page (updateUI state w).2) ∧
  ((updateUI state w).1 = Returned () →
   logPanel (page (apiCall endpoint method body w).2)
     = logPanel (page w) ++ firing_line endpoint :: (log_line <$> lines)).
Proof.
  intros Hserve Hok Hjson Hlog Hplain Hstate Htruthy.
  destruct (updateUI_renders (S := S) state Htruthy) as (o & sc & Hr).
  rewrite (Hr w). simpl.
  set (P := λ w' : World S,
         candidateList (page w') = candidate_buttons state ∧
         statusContainer (page w') = sc ∧
         (o = Returned () →
          logPanel (page w') = logPanel (page w) ++ firing_line endpoint :: (log_line <$> lines))).
  change (P (apiCall endpoint method body w).2).
  unfold apiCall. unfold bind at 1. simpl.
  unfold try_catch. unfold bind at 1. unfold fetch at 1. simpl.
  fold (api_request endpoint method body). rewrite Hserve, Hok. simpl.
  unfold response_json at 1. rewrite Hjson. unfold bind at 1. unfold ret at 1.
  rewrite Hlog. unfold lift_js at 1. unfold bind at 1. unfold ret at 1.
  set (w2 := mkWorld _ _ _ _ s').
  unfold bind at 1.
  destruct (appendLog_plain_lines log lines w2 Hplain) as (w3 & -> & _ & Hl3).
  rewrite Hstate. unfold lift_js at 1. unfold bind at 1. unfold ret at 1.
  rewrite Htruthy. unfold bind at 1. unfold ret at 1.
  rewrite (Hr w3). destruct o as [[]|e].
  - unfold P. simpl. split; [done|]. split; [done|]. intros _.
    rewrite Hl3. simpl. by rewrite <- app_assoc.
  - rewrite appendLog_one. unfold P. simpl. split; [done|]. by split.
Qed.

(** X21: a call of [apiCall] sends its own request exactly once, first
    of all, and after it at most one more request, the GET of
    /api/get-state; it never repeats a request, sets no timer and shows
    no alert. *)
Theorem apiCall_sends_one_or_two endpoint method body (w : World S) :
  (∃ more, issued w (apiCall endpoint method body w).2
             = api_request endpoint method body :: more ∧
           fallback_or_none more) ∧
  alerts (apiCall endpoint method body w).2 = alerts w ∧
  intervals (apiCall endpoint method body w).2 = intervals w.
Proof.
  destruct (apiCall_emits endpoint method body w) as (l & Hs & (more & -> & Hmore) & Ha & Hi).
  split; [|by split]. exists more. split; [|done]. by apply issued_app.
Qed.

(** ** The line for an HTTP error *)

Lemma pretty_N_char_numeric (x : N) : numeric (pretty_N_char x) = true.
Proof. unfold pretty_N_char. by repeat case_match. Qed.

Lemma pretty_N_go_numeric (x : N) (s : string) :
  all_numeric s = true → all_numeric (pretty_N_go x s) = true.
Proof.
  revert s. induction (N.lt_wf_0 x) as [x _ IH]; intros s Hs.
  assert (x = 0 ∨ 0 < x)%N as [->|?] by lia.
  - by rewrite pretty_N_go_0.
  - rewrite pretty_N_go_step by done. apply IH.
    { by apply N.div_lt. }
    simpl. by rewrite pretty_N_char_numeric, Hs.
Qed.

Lemma pretty_N_numeric (x : N) : all_numeric (pretty x) = true.
Proof.
  unfold pretty, pretty_N. case_decide; [done|]. by apply pretty_N_go_numeric.
Qed.

Lemma pretty_Z_numeric (z : Z) : all_numeric (pretty z) = true.
Proof.
  destruct z as [|p|p]; [done| |].
  - apply pretty_N_numeric.
  - change (pretty (Z.neg p)) with ("-" +:+ pretty (N.pos p)). simpl.
    apply pretty_N_numeric.
Qed.

Lemma no_match_in_numeric (ch : Ascii.ascii) (needle s : string) :
  numeric ch = false → all_numeric s = true →
  str_includes (String ch needle) s = false.
Proof.
  intros Hch. induction s as [|d s IH]; intros Hs; [done|].
  simpl in Hs. apply andb_true_iff in Hs as [Hd Hs].
  simpl. destruct (Ascii.ascii_dec ch d) as [->|_]; [congruence|].
  by apply IH.
Qed.

Lemma http_error_class (z : Z) :
  log_class ("API Error: HTTP error! status: " +:+ pretty z) = "log-line text-green-400".
Proof.
  pose proof (pretty_Z_numeric z) as Hnum.
  unfold log_class.
  assert (H1 : str_includes "!!" ("API Error: HTTP error! status: " +:+ pretty z) = false).
  { cbv beta iota delta [String.append]. simpl. by apply no_match_in_numeric. }
  assert (H2 : str_includes "down" ("API Error: HTTP error! status: " +:+ pretty z) = false).
  { cbv beta iota delta [String.append]. simpl. by apply no_match_in_numeric. }
  assert (H3 : str_includes "LEADER" ("API Error: HTTP error! status: " +:+ pretty z) = false).
  { cbv beta iota delta [String.append]. simpl. by apply no_match_in_numeric. }
  by rewrite H1, H2, H3.
Qed.

(** X19: the line for an HTTP error is never highlighted: whatever the
    status, "API Error: HTTP error! status: N" holds none of the words
    that make a line red or yellow, so after an answer that is not OK
    the log ends with that text in the plain green class. *)
Theorem http_error_line_is_plain
    (w : World S) (endpoint method : string) (body : JValue) (r : Response) (s' : S) :
  serve (server w) (api_request endpoint method body) = (Resolved r, s') →
  ok r = false →
  logPanel (page (apiCall endpoint method body w).2) =
    logPanel (page w) ++
    [firing_line endpoint;
     mkElement "p" "log-line text-green-400"
               ("> API Error: HTTP error! status: " +:+ pretty (status r)) None].
Proof.
  intros Hserve Hok.
  rewrite (apiCall_failed w endpoint method body (Resolved r) s'
             ("HTTP error! status: " +:+ pretty (status r)) Hserve)
    by (simpl; by rewrite Hok).
  simpl. rewrite <- app_assoc. simpl. do 2 f_equal.
  apply (f_equal2 (λ cls text, [mkElement "p" cls text None]));
    [exact (http_error_class (status r)) | reflexivity].
Qed.


End Calls.

(** * Reading the state changes nothing *)

Section Reads.
Import Js Client Views.
Context {browser : Browser} (roster : list string).

Local Abbreviation cluster := (Boundary.cluster_serve roster : Network Core.Cluster).











End Reads.

(** * The properties at work on examples *)

Section MoreExamples.
Import Js Client Views.




Lemma vote_button_votes_for_its_candidate_witness :
  vote_button "Alice"
    ∈ candidateList (page (updateUI (browser := example_browser) bare_state no_voter_id).2) ∧
  voterIdInput (page voter_and_name) ≠ "" ∧
  ∃ name more,
    name ∈ keys (JObj [("Alice", JBool true)]) ∧
    issued voter_and_name
           (run_handler (browser := example_browser) (CastVoteFor "Alice") voter_and_name).2
      = vote_request "v1" name :: more.
Proof.
  assert (Hin : vote_button "Alice"
                  ∈ candidateList
                      (page (updateUI (browser := example_browser) bare_state no_voter_id).2)).
  { rewrite (updateUI_candidate_list (browser := example_browser)
               bare_state (JObj [("Alice", JBool true)]) no_voter_id) by reflexivity.
    simpl. left. }
  assert (Hv : voterIdInput (page voter_and_name) ≠ "") by discriminate.
  split; [exact Hin|]. split; [exact Hv|].
  destruct (vote_button_votes_for_its_candidate (browser := example_browser)
              bare_state (JObj [("Alice", JBool true)]) no_voter_id
              (vote_button "Alice") (CastVoteFor "Alice"))
    as (name & Hname & _ & Hsend); [reflexivity | reflexivity | exact Hin | reflexivity |].
  destruct (Hsend voter_and_name Hv) as (more & Hmore & _).
  by exists name, more.
Defined.


Lemma fallback_exactly_when_state_missing_witness :
  serve (server fallback_fails) (api_request "/api/get-state" "GET" JNull)
    = (Resolved (mkResponse 200 (Some bare_state)),
       [Resolved (mkResponse 500 (Some error_body))]) ∧
  plain_log JUndefined [] ∧
  issued fallback_fails
         (apiCall (browser := example_browser) "/api/get-state" "GET" JNull fallback_fails).2
    = [poll_request; get_state_request].
Proof.
  assert (Hplain : plain_log JUndefined []) by (left; split; reflexivity).
  split; [reflexivity|]. split; [exact Hplain|].
  apply (fallback_exactly_when_state_missing (browser := example_browser)
           fallback_fails "/api/get-state" "GET" JNull
           (mkResponse 200 (Some bare_state))
           [Resolved (mkResponse 500 (Some error_body))]
           bare_state JUndefined JUndefined []); try reflexivity.
  exact Hplain.
Defined.

Lemma unreadable_body_is_an_error_witness :
  serve (server not_json) (api_request "/api/get-state" "GET" JNull)
    = (Resolved (mkResponse 200 None), []) ∧
  unreadable (browser := example_browser) (mkResponse 200 None)
    = Some "Unexpected token in JSON" ∧
  logPanel (page (apiCall (browser := example_browser)
                    "/api/get-state" "GET" JNull not_json).2) =
    [firing_line "/api/get-state"; log_line "API Error: Unexpected token in JSON"] ∧
  sent (apiCall (browser := example_browser) "/api/get-state" "GET" JNull not_json).2
    = [poll_request].
Proof.
  split; [reflexivity|]. split; [reflexivity|].
  destruct (unreadable_body_is_an_error (browser := example_browser)
              not_json "/api/get-state" "GET" JNull (mkResponse 200 None) []
              "Unexpected token in JSON") as (Hlog & _ & Hsent);
    [reflexivity | reflexivity | reflexivity |].
  split; [exact Hlog | exact Hsent].
Defined.

Lemma http_error_line_is_plain_witness :
  serve (server server_error) (fail_node_request "n1")
    = (Resolved (mkResponse 500 None), []) ∧
  ok (mkResponse 500 None) = false ∧
  logPanel (page (failNode (browser := example_browser) "n1" server_error).2) =
    [firing_line "/api/fail-node";
     mkElement "p" "log-line text-green-400"
               ("> API Error: HTTP error! status: " +:+ pretty 500%Z) None].
Proof.
  split; [reflexivity|]. split; [reflexivity|].
  apply (http_error_line_is_plain (browser := example_browser) server_error
           "/api/fail-node" "POST" (JObj [("node_id", JStr "n1")])
           (mkResponse 500 None) []); reflexivity.
Defined.

Lemma apiCall_shows_the_answer_witness :
  serve (server answered) (api_request "/api/vote" "POST" JNull)
    = (Resolved (mkResponse 200 (Some full_answer)), []) ∧
  plain_log (JArr (JStr <$> ["Vote accepted"])) ["Vote accepted"] ∧
  candidateList (page (apiCall (browser := example_browser)
                         "/api/vote" "POST" JNull answered).2)
    = candidateList (page (updateUI (browser := example_browser) bare_state answered).2) ∧
  logPanel (page (apiCall (browser := example_browser) "/api/vote" "POST" JNull answered).2)
    = [firing_line "/api/vote"; log_line "Vote accepted"].
Proof.
  assert (Hplain : plain_log (JArr (JStr <$> ["Vote accepted"])) ["Vote accepted"])
    by (right; reflexivity).
  split; [reflexivity|]. split; [exact Hplain|].
  destruct (apiCall_shows_the_answer (browser := example_browser)
              answered "/api/vote" "POST" JNull
              (mkResponse 200 (Some full_answer)) [] full_answer
              (JArr (JStr <$> ["Vote accepted"])) bare_state ["Vote accepted"])
    as (Hc & _ & Hlog); try reflexivity; [exact Hplain|].
  split; [exact Hc|]. apply Hlog. vm_compute. reflexivity.
Defined.

Lemma polling_only_reads_witness :
  Forall (λ k, k ≤ length (intervals no_voter_id))%nat [0; 0]%nat ∧
  ∃ more reads,
    fallback_or_none more ∧ polled 2 reads ∧
    issued no_voter_id
           (run (browser := example_browser) no_voter_id
                (Load :: (TimerFires <$> [0; 0]%nat)))
      = initialize_request :: more ++ reads.
Proof.
  assert (Hks : Forall (λ k, k ≤ length (intervals no_voter_id))%nat [0; 0]%nat)
    by (repeat constructor).
  split; [exact Hks|].
  destruct (polling_only_reads (browser := example_browser) no_voter_id [0; 0]%nat)
    as (_ & _ & _ & _ & Hpolls).
  exact (Hpolls Hks).
Defined.


End MoreExamples.
